(** * The osquery plugin registry (include/osquery/registry.h)

    A shallow embedding of [RegistryCore], [RegistryFactory] and [Plugin],
    and the properties of lookup, registration, dispatch, set-up pruning and
    route broadcast that the design document states about them.

    Modelling decisions, each taken from the header:

    - [std::map<std::string, V>] is a [gmap string V]; iteration over it
      visits the entries by ascending key ([map_iter]), as [std::map] does.
      [count], [at] and [operator[]] are written out below: [at] throws
      [std::out_of_range] on a missing key.
    - A plugin is an object on a heap ([Store]), reached through a handle
      ([loc], the [std::shared_ptr<RegistryType>] of the header).  The
      private [items_] of a container maps names to handles; the virtual
      methods update the object behind the handle, never the mapping.
      Objects are never freed in the model: a handle returned by [get] may
      outlive the entry it was read from.  The destruction of an object
      whose last handle is erased, and whatever its destructor runs, are
      not modelled, and no statement below speaks of them.
    - A virtual method of a plugin acts on the implementation state of its
      own object.  Every invocation of implementation code (constructor
      included) is appended to the [log] of the store, which is how "is
      invoked once" and "no implementation code runs" are stated.
    - [items_] is private and only [add] stores into it, always the result
      of a [new]: an item handle is never null.  [registries_] is a public
      member, and [RegistryFactory::names] compares one of its handles with
      null: a container handle is an [option loc] into a heap of
      containers, [None] being the null handle.  Dereferencing a null or
      dangling handle is undefined behaviour ([Undef]).
    - Exceptions and undefined behaviour are outcomes of a small state
      monad [M].
    - Template parameters ([Item] of [add], [Type] of [create]) only fix
      C++ types; of [Item] the model keeps the class whose constructor
      [new Item()] runs, of [Type] nothing.

    The statements about [setUp] and [getRoutes] assume that the item
    handles of a container are live and unshared; [reachable_wf] shows that
    every world reached through the interface has only such containers.
    The statements about the values of a broadcast and about the
    Directory's [setUp] assume in addition that containers share nothing;
    [reachable_sound] shows the same of that. *)

From Stdlib Require Import ZArith.
From stdpp Require Import gmap strings list fin_maps sorting.

Local Open Scope string_scope.

(** ** Status *)

(** Modelled from the spec: [osquery/status.h] is included by the header but
    is not part of the sources at hand.  The design document describes the
    result of every operation as "an explicit result carrying a status code
    and message"; the header builds it with [Status(code, message)], code
    [0] for success, and reads it with [ok()]. *)
Record Status : Type := mkStatus { getCode : Z; getMessage : string }.

Definition ok (s : Status) : bool := bool_decide (getCode s = 0%Z).

(** The error taxonomy of the design document, as the header spells each
    failure. *)
Definition DuplicateItem (item_name : string) : Status :=
  mkStatus 1 ("Duplicate registry item exists: " +:+ item_name).

Definition ItemNotFound (item_name : string) : Status :=
  mkStatus 1 ("Cannot call registry item: " +:+ item_name).

Definition RegistryNotFound (registry_name item_name : string) : Status :=
  mkStatus 1 ("Cannot call " +:+ registry_name +:+ ":" +:+ item_name).

(** ** Request, response and route types *)

Abbreviation RouteInfo := (gmap string string).
Abbreviation RegistryRoutes := (gmap string (gmap string string)).
Abbreviation RegistryBroadcast := (gmap string (gmap string (gmap string string))).
Abbreviation PluginRequest := (gmap string string).
Abbreviation PluginResponse := (list (gmap string string)).

(** ** [std::map] as the header uses it *)

Definition key_le {V : Type} (a b : string * V) : Prop :=
  String.leb a.1 b.1 = true.

#[global] Instance key_le_dec {V : Type} (a b : string * V) :
  Decision (key_le a b).
Proof. unfold key_le. apply _. Defined.

(** The entries in the order a range-for over a [std::map] visits them. *)
Definition map_iter {V : Type} (m : gmap string V) : list (string * V) :=
  merge_sort key_le (map_to_list m).

(** [m.count(k)] *)
Definition map_count {V : Type} (m : gmap string V) (k : string) : nat :=
  match m !! k with Some _ => 1 | None => 0 end.

#[global] Instance nat_gt_dec (x y : nat) : Decision (x > y) :=
  decide (y < x).

(** ** Outcomes and the state monad *)

Inductive exn : Type := out_of_range.

Inductive outcome (Σ A : Type) : Type :=
| Ret (a : A) (σ : Σ)
| Throw (e : exn) (σ : Σ)
| Undef.
Arguments Ret {Σ A} a σ.
Arguments Throw {Σ A} e σ.
Arguments Undef {Σ A}.

Definition M (Σ A : Type) : Type := Σ → outcome Σ A.

Definition ret {Σ A : Type} (a : A) : M Σ A := λ σ, Ret a σ.

Definition bind {Σ A B : Type} (m : M Σ A) (k : A → M Σ B) : M Σ B :=
  λ σ, match m σ with
       | Ret a σ' => k a σ'
       | Throw e σ' => Throw e σ'
       | Undef => Undef
       end.

Definition throw {Σ A : Type} (e : exn) : M Σ A := λ σ, Throw e σ.
Definition undefined {Σ A : Type} : M Σ A := λ _, Undef.
Definition gets {Σ A : Type} (f : Σ → A) : M Σ A := λ σ, Ret (f σ) σ.
Definition modify {Σ : Type} (f : Σ → Σ) : M Σ unit := λ σ, Ret tt (f σ).

Declare Scope reg_scope.
Delimit Scope reg_scope with reg.
Notation "'let*' x := m 'in' k" := (bind m (λ x, k))
  (at level 10, x name, m at level 100, k at level 200) : reg_scope.
Notation "'let*' ' p := m 'in' k" := (bind m (λ x, match x with p => k end))
  (at level 10, p strict pattern, m at level 100, k at level 200) : reg_scope.
Notation "m ;; k" := (bind m (λ _, k))
  (at level 100, k at level 200, right associativity) : reg_scope.
Local Open Scope reg_scope.

(** A range-for whose body updates a local accumulator. *)
Fixpoint for_fold {Σ A B : Type} (l : list A) (acc : B)
    (body : B → A → M Σ B) : M Σ B :=
  match l with
  | [] => ret acc
  | x :: l' => let* acc' := body acc x in for_fold l' acc' body
  end.

(** A range-for with no local state. *)
Fixpoint for_each {Σ A : Type} (l : list A) (body : A → M Σ unit) : M Σ unit :=
  match l with
  | [] => ret tt
  | x :: l' => body x;; for_each l' body
  end.

(** Run a computation on a part of the state. *)
Definition zoom {Σ Σ' A : Type} (getl : Σ → Σ') (putl : Σ' → Σ → Σ)
    (m : M Σ' A) : M Σ A :=
  λ σ, match m (getl σ) with
       | Ret a σ' => Ret a (putl σ' σ)
       | Throw e σ' => Throw e (putl σ' σ)
       | Undef => Undef
       end.

(** [m.at(k)] *)
Definition map_at {Σ V : Type} (m : gmap string V) (k : string) : M Σ V :=
  match m !! k with
  | Some v => ret v
  | None => throw out_of_range
  end.

(** ** Plugin *)

Abbreviation loc := positive.

Module Plugin.

(** A class deriving from [Plugin]: the state its objects carry, the
    constructor and the four virtual methods. *)
Record class : Type := mkClass {
  impl : Type;
  ctor : impl;
  setUp : impl → Status * impl;
  tearDown : impl → impl;
  routeInfo : impl → RouteInfo * impl;
  call : impl → PluginRequest → PluginResponse
         → Status * PluginResponse * impl
}.

(** The class [Plugin] itself: every virtual method at its default. *)
Definition base : class := {|
  impl := unit;
  ctor := tt;
  setUp := λ s, (mkStatus 0 "Not used", s);
  tearDown := λ s, s;
  routeInfo := λ s, (∅, s);
  call := λ s _ response, (mkStatus 1 "Error", response, s)
|}.

Record obj : Type := mkObj {
  name_ : string;
  cls : class;
  st : impl cls
}.

Definition with_st (o : obj) (s : impl (cls o)) : obj :=
  {| name_ := name_ o; cls := cls o; st := s |}.

Definition with_name (o : obj) (name : string) : obj :=
  {| name_ := name; cls := cls o; st := st o |}.

End Plugin.

(** Implementation code that ran, by the object it ran on. *)
Inductive Event : Type :=
| Ev_new (l : loc)
| Ev_setUp (l : loc)
| Ev_tearDown (l : loc)
| Ev_routeInfo (l : loc)
| Ev_call (l : loc) (request : PluginRequest).

Record Store : Type := mkStore {
  objs : gmap loc Plugin.obj;
  log : list Event
}.

(** Operations through a [std::shared_ptr<RegistryType>]. *)
Module Item.

Definition emit (e : Event) : M Store unit :=
  modify (λ σ, {| objs := objs σ; log := (log σ ++ [e])%list |}).

Definition deref (l : loc) : M Store Plugin.obj :=
  λ σ, match objs σ !! l with
       | Some o => Ret o σ
       | None => Undef
       end.

Definition assign (l : loc) (o : Plugin.obj) : M Store unit :=
  modify (λ σ, {| objs := <[l := o]> (objs σ); log := log σ |}).

(** [new Item()]: [Plugin()] names the object "unnamed", then the
    constructor of [Item] runs. *)
Definition new_ (Item : Plugin.class) : M Store loc :=
  let* l := gets (λ σ, fresh (dom (objs σ))) in
  assign l {| Plugin.name_ := "unnamed"; Plugin.cls := Item;
              Plugin.st := Plugin.ctor Item |};;
  emit (Ev_new l);;
  ret l.

(** [item->setName(name)] *)
Definition setName (l : loc) (name : string) : M Store unit :=
  let* o := deref l in assign l (Plugin.with_name o name).

(** [item->setUp()] *)
Definition setUp (l : loc) : M Store Status :=
  let* o := deref l in
  emit (Ev_setUp l);;
  let r := Plugin.setUp (Plugin.cls o) (Plugin.st o) in
  assign l (Plugin.with_st o r.2);;
  ret r.1.

(** [item->tearDown()] *)
Definition tearDown (l : loc) : M Store unit :=
  let* o := deref l in
  emit (Ev_tearDown l);;
  assign l (Plugin.with_st o (Plugin.tearDown (Plugin.cls o) (Plugin.st o))).

(** [item->routeInfo()] *)
Definition routeInfo (l : loc) : M Store RouteInfo :=
  let* o := deref l in
  emit (Ev_routeInfo l);;
  let r := Plugin.routeInfo (Plugin.cls o) (Plugin.st o) in
  assign l (Plugin.with_st o r.2);;
  ret r.1.

(** [item->call(request, response)]; [response] is passed by reference and
    comes back with the status. *)
Definition call (l : loc) (request : PluginRequest) (response : PluginResponse)
    : M Store (Status * PluginResponse) :=
  let* o := deref l in
  emit (Ev_call l request);;
  let r := Plugin.call (Plugin.cls o) (Plugin.st o) request response in
  assign l (Plugin.with_st o r.2);;
  ret r.1.

End Item.

(** ** RegistryCore *)

Module RegistryCore.

Record t : Type := mk {
  name_ : string;
  items_ : gmap string loc;
  auto_setup_ : bool
}.

(** A method runs on [this] and on the heap of plugin objects. *)
Abbreviation state := (t * Store)%type.

Definition heap {A : Type} (m : M Store A) : M state A :=
  zoom snd (λ s σ, (σ.1, s)) m.

Definition items : M state (gmap string loc) := gets (λ σ, items_ σ.1).

Definition set_items (f : gmap string loc → gmap string loc) : M state unit :=
  modify (λ σ, ({| name_ := name_ σ.1; items_ := f (items_ σ.1);
                   auto_setup_ := auto_setup_ σ.1 |}, σ.2)).

(** [items_[k]], dereferenced at once by every use in the header: on a
    missing key [operator[]] stores and returns a null handle. *)
Definition items_index (k : string) : M state loc :=
  let* m := items in
  match m !! k with
  | Some l => ret l
  | None => undefined
  end.

(** [RegistryCore(bool auto_setup = true)] *)
Definition new_ (auto_setup : bool) : t :=
  {| name_ := ""; items_ := ∅; auto_setup_ := auto_setup |}.

Definition add (Item : Plugin.class) (item_name : string) : M state Status :=
  let* m := items in
  if decide (map_count m item_name > 0) then
    ret (mkStatus 1 ("Duplicate registry item exists: " +:+ item_name))
  else
    let* item := heap (Item.new_ Item) in
    heap (Item.setName item item_name);;
    set_items (<[item_name := item]>);;
    ret (mkStatus 0 "OK").

Definition get (item_name : string) : M state loc :=
  let* m := items in map_at m item_name.

Definition remove (item_name : string) : M state unit :=
  let* m := items in
  if decide (map_count m item_name > 0) then
    let* item := items_index item_name in
    heap (Item.tearDown item);;
    set_items (delete item_name)
  else ret tt.

Definition getRoutes : M state RegistryRoutes :=
  let* m := items in
  for_fold (map_iter m) (∅ : RegistryRoutes) (λ route_table item,
    let* info := heap (Item.routeInfo item.2) in
    ret (<[item.1 := info]> route_table)).

Definition call (item_name : string) (request : PluginRequest)
    (response : PluginResponse) : M state (Status * PluginResponse) :=
  let* m := items in
  if decide (map_count m item_name > 0) then
    let* item := items_index item_name in
    heap (Item.call item request response)
  else
    ret (mkStatus 1 ("Cannot call registry item: " +:+ item_name), response).

Definition all : M state (gmap string loc) := items.

(** The first loop of [setUp]: "try to set up each of the registry items";
    its value is the local vector [failed]. *)
Definition setUp_items : M state (list string) :=
  let* m := items in
  for_fold (map_iter m) ([] : list string) (λ failed item,
    let* s := heap (Item.setUp item.2) in
    if negb (ok s) then ret (failed ++ [item.1])%list else ret failed).

Definition setUp : M state unit :=
  let* auto_setup := gets (λ σ, auto_setup_ σ.1) in
  if negb auto_setup then ret tt
  else
    let* failed := setUp_items in
    for_each failed remove.

Definition exists_ (item_name : string) : M state bool :=
  let* m := items in ret (bool_decide (map_count m item_name > 0)).

Definition names : M state (list string) :=
  let* m := items in
  for_fold (map_iter m) ([] : list string) (λ names item,
    ret (names ++ [item.1])%list).

Definition count : M state nat :=
  let* m := items in ret (size m).

Definition setName (name : string) : M state unit :=
  modify (λ σ, ({| name_ := name; items_ := items_ σ.1;
                   auto_setup_ := auto_setup_ σ.1 |}, σ.2)).

End RegistryCore.

(** ** RegistryFactory

    [class Registry : public RegistryFactory<Plugin> {}] adds nothing to it:
    the module below is also the [Registry] callers use. *)

Module RegistryFactory.

Record t : Type := mk {
  registries_ : gmap string (option loc)
}.

(** The process: the single [instance()], the containers it allocated and
    the plugin objects. *)
Record world : Type := mkWorld {
  instance : t;
  cores : gmap loc RegistryCore.t;
  store : Store
}.

Definition registries : M world (gmap string (option loc)) :=
  gets (λ w, registries_ (instance w)).

Definition set_registries
    (f : gmap string (option loc) → gmap string (option loc)) : M world unit :=
  modify (λ w, {| instance := {| registries_ := f (registries_ (instance w)) |};
                  cores := cores w; store := store w |}).

(** [handle->method(...)] *)
Definition arrow {A : Type} (handle : option loc)
    (method : M RegistryCore.state A) : M world A :=
  λ w, match handle with
       | None => Undef
       | Some c =>
           match cores w !! c with
           | None => Undef
           | Some this =>
               let back (σ : RegistryCore.state) :=
                 {| instance := instance w; cores := <[c := σ.1]> (cores w);
                    store := σ.2 |} in
               match method (this, store w) with
               | Ret a σ => Ret a (back σ)
               | Throw e σ => Throw e (back σ)
               | Undef => Undef
               end
           end
       end.

(** [new RegistryCore<Type>(auto_setup)] *)
Definition new_core (auto_setup : bool) : M world (option loc) :=
  let* c := gets (λ w, fresh (dom (cores w))) in
  modify (λ w, {| instance := instance w;
                  cores := <[c := RegistryCore.new_ auto_setup]> (cores w);
                  store := store w |});;
  ret (Some c).

(** [registries_[k]], dereferenced at once by its one use in the header. *)
Definition registries_index (k : string) : M world (option loc) :=
  let* regs := registries in
  match regs !! k with
  | Some h => ret h
  | None => undefined
  end.

Definition create (registry_name : string) (auto_setup : bool) : M world Z :=
  let* regs := registries in
  if decide (map_count regs registry_name > 0) then ret 0%Z
  else
    let* registry := new_core auto_setup in
    arrow registry (RegistryCore.setName registry_name);;
    set_registries (<[registry_name := registry]>);;
    ret 0%Z.

Definition registry (registry_name : string) : M world (option loc) :=
  let* regs := registries in map_at regs registry_name.

Definition add (Item : Plugin.class) (registry_name item_name : string)
    : M world Status :=
  let* registry := registry registry_name in
  arrow registry (RegistryCore.add Item item_name).

Definition all : M world (gmap string (option loc)) := registries.

Definition all_of (registry_name : string) : M world (gmap string loc) :=
  let* registry := registry registry_name in
  arrow registry RegistryCore.all.

Definition get (registry_name item_name : string) : M world loc :=
  let* registry := registry registry_name in
  arrow registry (RegistryCore.get item_name).

Definition getBroadcast : M world RegistryBroadcast :=
  let* regs := registries in
  for_fold (map_iter regs) (∅ : RegistryBroadcast) (λ broadcast registry,
    let* routes := arrow registry.2 RegistryCore.getRoutes in
    ret (<[registry.1 := routes]> broadcast)).

Definition call (registry_name item_name : string) (request : PluginRequest)
    (response : PluginResponse) : M world (Status * PluginResponse) :=
  let* regs := registries in
  if decide (map_count regs registry_name > 0) then
    let* registry := registries_index registry_name in
    arrow registry (RegistryCore.call item_name request response)
  else
    ret (mkStatus 1 ("Cannot call " +:+ registry_name +:+ ":" +:+ item_name),
         response).

(** The overload without a response: a local, empty one is passed. *)
Definition call_ (registry_name item_name : string) (request : PluginRequest)
    : M world Status :=
  let* r := call registry_name item_name request [] in ret r.1.

Definition setUp : M world unit :=
  let* regs := all in
  for_each (map_iter regs) (λ registry,
    arrow registry.2 RegistryCore.setUp).

Definition exists_ (registry_name item_name : string) : M world bool :=
  let* regs := registries in
  if decide (map_count regs registry_name = 0) then ret false
  else
    let* registry := registry registry_name in
    arrow registry (RegistryCore.exists_ item_name).

Definition names (registry_name : string) : M world (list string) :=
  let* regs := registries in
  let* handle := map_at regs registry_name in
  if decide (handle = None) then ret []
  else
    let* registry := registry registry_name in
    arrow registry RegistryCore.names.

Definition count : M world nat :=
  let* regs := registries in ret (size regs).

Definition count_of (registry_name : string) : M world nat :=
  let* regs := registries in
  if decide (map_count regs registry_name = 0) then ret 0
  else
    let* registry := registry registry_name in
    arrow registry RegistryCore.count.

(** A process before any registry was created. *)
Definition start : world :=
  {| instance := {| registries_ := ∅ |}; cores := ∅;
     store := {| objs := ∅; log := [] |} |}.

End RegistryFactory.

(** ** Vocabulary of the statements *)

(** Every handle of an item mapping points to an object of the store. *)
Definition live (m : gmap string loc) (σ : Store) : Prop :=
  map_Forall (λ _ l, is_Some (objs σ !! l)) m.

(** No object is registered under two names ([add] allocates one object per
    name). *)
Definition unshared (m : gmap string loc) : Prop :=
  NoDup (map_to_list m).*2.

#[global] Instance live_dec m σ : Decision (live m σ).
Proof. unfold live. apply _. Defined.

#[global] Instance unshared_dec m : Decision (unshared m).
Proof. unfold unshared. apply _. Defined.

(** What an object's own [setUp], [tearDown] and [routeInfo] do to it. *)
Definition after_setUp (o : Plugin.obj) : Plugin.obj :=
  Plugin.with_st o (Plugin.setUp (Plugin.cls o) (Plugin.st o)).2.

Definition after_tearDown (o : Plugin.obj) : Plugin.obj :=
  Plugin.with_st o (Plugin.tearDown (Plugin.cls o) (Plugin.st o)).

Definition after_routeInfo (o : Plugin.obj) : Plugin.obj :=
  Plugin.with_st o (Plugin.routeInfo (Plugin.cls o) (Plugin.st o)).2.

Definition after_call (request : PluginRequest) (response : PluginResponse)
    (o : Plugin.obj) : Plugin.obj :=
  Plugin.with_st o
    (Plugin.call (Plugin.cls o) (Plugin.st o) request response).2.

(** The objects behind the handles [ls], each updated by [f], in turn. *)
Definition alter_all (f : Plugin.obj → Plugin.obj) (ls : list loc)
    (m : gmap loc Plugin.obj) : gmap loc Plugin.obj :=
  foldl (λ m l, alter f l m) m ls.

(** Does the [setUp] of the object behind [l] report success in [σ]? *)
Definition setUp_ok (σ : Store) (l : loc) : bool :=
  match objs σ !! l with
  | Some o => ok (Plugin.setUp (Plugin.cls o) (Plugin.st o)).1
  | None => false
  end.

(** An entry of an item mapping whose [setUp] reports failure in [σ]. *)
Definition failing (σ : Store) (item : string * loc) : Prop :=
  setUp_ok σ item.2 = false.

#[global] Instance failing_dec σ item : Decision (failing σ item).
Proof. unfold failing. apply _. Defined.

(** The mapping with the names [ks] erased, in turn. *)
Definition delete_all (ks : list string) (m : gmap string loc)
    : gmap string loc :=
  foldl (λ m k, delete k m) m ks.

(** The route the object behind [l] publishes in [σ]. *)
Definition route_of (σ : Store) (l : loc) : RouteInfo :=
  match objs σ !! l with
  | Some o => (Plugin.routeInfo (Plugin.cls o) (Plugin.st o)).1
  | None => ∅
  end.

Definition with_items (r : RegistryCore.t) (m : gmap string loc)
    : RegistryCore.t :=
  {| RegistryCore.name_ := RegistryCore.name_ r; RegistryCore.items_ := m;
     RegistryCore.auto_setup_ := RegistryCore.auto_setup_ r |}.

Definition with_objs (σ : Store) (m : gmap loc Plugin.obj) (es : list Event)
    : Store :=
  {| objs := m; log := (log σ ++ es)%list |}.

Definition with_core (w : RegistryFactory.world) (c : loc)
    (σ : RegistryCore.state) : RegistryFactory.world :=
  {| RegistryFactory.instance := RegistryFactory.instance w;
     RegistryFactory.cores := <[c := σ.1]> (RegistryFactory.cores w);
     RegistryFactory.store := σ.2 |}.

Definition with_store (w : RegistryFactory.world) (σ : Store)
    : RegistryFactory.world :=
  {| RegistryFactory.instance := RegistryFactory.instance w;
     RegistryFactory.cores := RegistryFactory.cores w;
     RegistryFactory.store := σ |}.

(** The route table after the entries [its], in turn, each with the route
    [rt] gives for its handle. *)
Definition insert_routes (rt : loc → RouteInfo) (acc : RegistryRoutes)
    (its : list (string * loc)) : RegistryRoutes :=
  foldl (λ t item, <[item.1 := rt item.2]> t) acc its.

(** A container handle that is not null and points to a container whose
    item handles are live and unshared. *)
Definition handle_ok (w : RegistryFactory.world) (h : option loc) : Prop :=
  match h with
  | Some c =>
      match RegistryFactory.cores w !! c with
      | Some r => live (RegistryCore.items_ r) (RegistryFactory.store w)
                  ∧ unshared (RegistryCore.items_ r)
      | None => False
      end
  | None => False
  end.

#[global] Instance handle_ok_dec w h : Decision (handle_ok w h).
Proof.
  unfold handle_ok. destruct h as [c|]; [|apply _].
  destruct (RegistryFactory.cores w !! c); apply _.
Defined.

Definition wf_world (w : RegistryFactory.world) : Prop :=
  map_Forall (λ _ h, handle_ok w h)
    (RegistryFactory.registries_ (RegistryFactory.instance w)).

#[global] Instance wf_world_dec w : Decision (wf_world w).
Proof. unfold wf_world. apply _. Defined.

(** [call registry_name item_name] would find no registry, or a registry
    without the item. *)
Definition not_found (w : RegistryFactory.world)
    (registry_name item_name : string) : bool :=
  match RegistryFactory.registries_ (RegistryFactory.instance w)
          !! registry_name with
  | None => true
  | Some None => false
  | Some (Some c) =>
      match RegistryFactory.cores w !! c with
      | Some r => bool_decide (RegistryCore.items_ r !! item_name = None)
      | None => false
      end
  end.

(** The state a computation leaves behind, when it returns or throws. *)
Definition final {Σ A : Type} (o : outcome Σ A) : option Σ :=
  match o with
  | Ret _ σ => Some σ
  | Throw _ σ => Some σ
  | Undef => None
  end.

(** A plugin method run through a handle obtained from [get], outside any
    container. *)
Definition in_store {A : Type} (m : M Store A) : M RegistryFactory.world A :=
  zoom RegistryFactory.store (λ σ w, with_store w σ) m.

(** The public methods of [RegistryCore]. *)
Inductive core_method : ∀ A : Type, M RegistryCore.state A → Prop :=
| m_add Item item_name : core_method _ (RegistryCore.add Item item_name)
| m_get item_name : core_method _ (RegistryCore.get item_name)
| m_remove item_name : core_method _ (RegistryCore.remove item_name)
| m_getRoutes : core_method _ RegistryCore.getRoutes
| m_call item_name request response :
    core_method _ (RegistryCore.call item_name request response)
| m_all : core_method _ RegistryCore.all
| m_setUp : core_method _ RegistryCore.setUp
| m_exists item_name : core_method _ (RegistryCore.exists_ item_name)
| m_names : core_method _ RegistryCore.names
| m_count : core_method _ RegistryCore.count
| m_setName name : core_method _ (RegistryCore.setName name).

(** The public methods of [Plugin]. *)
Inductive item_method : ∀ A : Type, M Store A → Prop :=
| i_setName l name : item_method _ (Item.setName l name)
| i_setUp l : item_method _ (Item.setUp l)
| i_tearDown l : item_method _ (Item.tearDown l)
| i_routeInfo l : item_method _ (Item.routeInfo l)
| i_call l request response : item_method _ (Item.call l request response).

(** The worlds a process gets to through the interface: the static
    functions of the Directory, the methods of a container handed out by
    [registry] ([add], [get] and [all(registry_name)] of the Directory are
    of this form), and the methods of a plugin handed out by [get]. *)
Inductive reachable : RegistryFactory.world → Prop :=
| reach_start : reachable RegistryFactory.start
| reach_create registry_name auto_setup w w' :
    reachable w →
    final (RegistryFactory.create registry_name auto_setup w) = Some w' →
    reachable w'
| reach_registry (A : Type) registry_name
    (method : M RegistryCore.state A) w w' :
    reachable w →
    core_method A method →
    final ((let* registry := RegistryFactory.registry registry_name in
            RegistryFactory.arrow registry method) w) = Some w' →
    reachable w'
| reach_item (A : Type) (method : M Store A) w w' :
    reachable w →
    item_method A method →
    final (in_store method w) = Some w' →
    reachable w'
| reach_getBroadcast w w' :
    reachable w →
    final (RegistryFactory.getBroadcast w) = Some w' →
    reachable w'
| reach_call registry_name item_name request response w w' :
    reachable w →
    final (RegistryFactory.call registry_name item_name request response w)
    = Some w' →
    reachable w'
| reach_setUp w w' :
    reachable w →
    final (RegistryFactory.setUp w) = Some w' →
    reachable w'
| reach_exists registry_name item_name w w' :
    reachable w →
    final (RegistryFactory.exists_ registry_name item_name w) = Some w' →
    reachable w'
| reach_names registry_name w w' :
    reachable w →
    final (RegistryFactory.names registry_name w) = Some w' →
    reachable w'
| reach_count_of registry_name w w' :
    reachable w →
    final (RegistryFactory.count_of registry_name w) = Some w' →
    reachable w'.

(** What [add] establishes and every method keeps. *)
Definition core_ok (r : RegistryCore.t) (σ : Store) : Prop :=
  live (RegistryCore.items_ r) σ ∧ unshared (RegistryCore.items_ r).

(** A method that keeps a container well formed and frees no object. *)
Definition core_step {A : Type} (m : M RegistryCore.state A) : Prop :=
  ∀ r σ r' σ',
    core_ok r σ → final (m (r, σ)) = Some (r', σ') →
    core_ok r' σ' ∧ dom (objs σ) ⊆ dom (objs σ').

(** A computation that keeps the world well formed and [registries_] equal
    to [i]. *)
Definition stays_on (i : RegistryFactory.t) {A : Type}
    (m : M RegistryFactory.world A) : Prop :=
  ∀ w w',
    RegistryFactory.instance w = i → wf_world w → final (m w) = Some w' →
    wf_world w' ∧ RegistryFactory.instance w' = i.

(** ** Two plugin classes of the design document's scenarios *)

(** Scenario A: [setUp] succeeds, [call] echoes [request["name"]] into
    [response[0]["msg"]]. *)
Definition hello_class : Plugin.class := {|
  Plugin.impl := unit;
  Plugin.ctor := tt;
  Plugin.setUp := λ s, (mkStatus 0 "OK", s);
  Plugin.tearDown := λ s, s;
  Plugin.routeInfo := λ s, ({[ "kind" := "greeting" ]}, s);
  Plugin.call := λ s request _,
    (mkStatus 0 "OK", [ {[ "msg" := default "" (request !! "name") ]} ], s)
|}.

(** Scenario B: [setUp] always fails; the state counts the calls made. *)
Definition broken_class : Plugin.class := {|
  Plugin.impl := nat;
  Plugin.ctor := 0;
  Plugin.setUp := λ n, (mkStatus 1 "cannot start", S n);
  Plugin.tearDown := λ n, S n;
  Plugin.routeInfo := λ n, (∅, S n);
  Plugin.call := λ n _ response, (mkStatus 1 "Error", response, S n)
|}.

Definition greeter : RegistryCore.t :=
  {| RegistryCore.name_ := "greeter";
     RegistryCore.items_ := {[ "hello" := 1%positive; "broken" := 2%positive ]};
     RegistryCore.auto_setup_ := true |}.

Definition lazy_greeter : RegistryCore.t :=
  {| RegistryCore.name_ := "greeter";
     RegistryCore.items_ := {[ "hello" := 1%positive; "broken" := 2%positive ]};
     RegistryCore.auto_setup_ := false |}.

Definition greeter_store : Store :=
  {| objs := {[ 1%positive := Plugin.mkObj "hello" hello_class tt;
                2%positive := Plugin.mkObj "broken" broken_class 0 ]};
     log := [Ev_new 1%positive; Ev_new 2%positive] |}.

Definition greeter_world : RegistryFactory.world :=
  {| RegistryFactory.instance :=
       {| RegistryFactory.registries_ := {[ "greeter" := Some 1%positive ]} |};
     RegistryFactory.cores := {[ 1%positive := greeter ]};
     RegistryFactory.store := greeter_store |}.

(** A world outside the interface: [registries_] is public, and here a name
    was bound to the null handle. *)
Definition ghost_world : RegistryFactory.world :=
  {| RegistryFactory.instance :=
       {| RegistryFactory.registries_ := {[ "ghost" := None ]} |};
     RegistryFactory.cores := ∅;
     RegistryFactory.store := {| objs := ∅; log := [] |} |}.

(** ** The registration macros *)

(** [CREATE_REGISTRY(type, name)]: [Registry::create<type>(name)], with
    [auto_setup] at its default. *)
Definition CREATE_REGISTRY (name : string) : M RegistryFactory.world Z :=
  RegistryFactory.create name true.

(** [CREATE_LAZY_REGISTRY(type, name)]: [Registry::create<type>(name, false)] *)
Definition CREATE_LAZY_REGISTRY (name : string) : M RegistryFactory.world Z :=
  RegistryFactory.create name false.

(** [REGISTER(type, registry, name)]: [Registry::add<type>(registry, name)] *)
Definition REGISTER (type : Plugin.class) (registry name : string)
    : M RegistryFactory.world Status :=
  RegistryFactory.add type registry name.

(** ** Further vocabulary *)

(** The world once [create] has bound the free name [registry_name]. *)
Definition created (w : RegistryFactory.world) (registry_name : string)
    (auto_setup : bool) : RegistryFactory.world :=
  let c := fresh (dom (RegistryFactory.cores w)) in
  {| RegistryFactory.instance :=
       {| RegistryFactory.registries_ :=
            <[registry_name := Some c]>
              (RegistryFactory.registries_ (RegistryFactory.instance w)) |};
     RegistryFactory.cores :=
       <[c := {| RegistryCore.name_ := registry_name;
                 RegistryCore.items_ := ∅;
                 RegistryCore.auto_setup_ := auto_setup |}]>
         (RegistryFactory.cores w);
     RegistryFactory.store := RegistryFactory.store w |}.

(** The container and the store once [add] has registered an object of
    class [Item] under the free name [item_name]. *)
Definition added (Item : Plugin.class) (item_name : string)
    (σ : RegistryCore.state) : RegistryCore.state :=
  let l := fresh (dom (objs σ.2)) in
  (with_items σ.1 (<[item_name := l]> (RegistryCore.items_ σ.1)),
   with_objs σ.2
     (<[l := Plugin.mkObj item_name Item (Plugin.ctor Item)]> (objs σ.2))
     [Ev_new l]).

(** The order of [std::string], which [std::map] iterates in. *)
Definition name_le (a b : string) : Prop := String.leb a b = true.

(** A container with one item of class [Plugin] itself. *)
Definition plain_core : RegistryCore.t :=
  {| RegistryCore.name_ := "plain";
     RegistryCore.items_ := {[ "default" := 1%positive ]};
     RegistryCore.auto_setup_ := true |}.

Definition plain_store : Store :=
  {| objs := {[ 1%positive := Plugin.mkObj "default" Plugin.base tt ]};
     log := [Ev_new 1%positive] |}.

(** The process once one registry was created and one class registered under
    it: the first container and the first object are at address 1. *)
Definition booted (Item : Plugin.class) (registry_name item_name : string)
    (auto_setup : bool) : RegistryFactory.world :=
  {| RegistryFactory.instance :=
       {| RegistryFactory.registries_ :=
            {[ registry_name := Some 1%positive ]} |};
     RegistryFactory.cores :=
       {[ 1%positive :=
            {| RegistryCore.name_ := registry_name;
               RegistryCore.items_ := {[ item_name := 1%positive ]};
               RegistryCore.auto_setup_ := auto_setup |} ]};
     RegistryFactory.store :=
       {| objs := {[ 1%positive :=
                       Plugin.mkObj item_name Item (Plugin.ctor Item) ]};
          log := [Ev_new 1%positive] |} |}.

(** ** Containers that share nothing *)

(** The name is bound to the handle [c], behind which is the container [r]. *)
Definition bound (w : RegistryFactory.world) (registry_name : string)
    (c : loc) (r : RegistryCore.t) : Prop :=
  RegistryFactory.registries_ (RegistryFactory.instance w) !! registry_name
  = Some (Some c)
  ∧ RegistryFactory.cores w !! c = Some r.

(** No container is bound under two names, and no object is registered in
    the containers of two names ([create] allocates one container per name,
    [add] one object per item). *)
Definition separate (w : RegistryFactory.world) : Prop :=
  (∀ rn1 rn2 c,
     RegistryFactory.registries_ (RegistryFactory.instance w) !! rn1
     = Some (Some c) →
     RegistryFactory.registries_ (RegistryFactory.instance w) !! rn2
     = Some (Some c) →
     rn1 = rn2)
  ∧ (∀ rn1 rn2 c1 c2 r1 r2 k1 k2 l,
       bound w rn1 c1 r1 → bound w rn2 c2 r2 →
       RegistryCore.items_ r1 !! k1 = Some l →
       RegistryCore.items_ r2 !! k2 = Some l →
       rn1 = rn2).

(** The routes of the container behind a handle, each item's as its object
    publishes it in the store of [w]. *)
Definition routes_in (w : RegistryFactory.world) (h : option loc)
    : RegistryRoutes :=
  match h with
  | Some c =>
      match RegistryFactory.cores w !! c with
      | Some r => route_of (RegistryFactory.store w) <$> RegistryCore.items_ r
      | None => ∅
      end
  | None => ∅
  end.

(** A method after which every item of the container was an item before or
    is an object that did not exist before. *)
Definition core_grows {A : Type} (m : M RegistryCore.state A) : Prop :=
  ∀ r σ r' σ',
    core_ok r σ → final (m (r, σ)) = Some (r', σ') →
    ∀ k l, RegistryCore.items_ r' !! k = Some l →
           RegistryCore.items_ r !! k = Some l ∨ objs σ !! l = None.

(** A computation that keeps [Inv] and leaves [registries_] equal to [i]. *)
Definition inv_on (Inv : RegistryFactory.world → Prop)
    (i : RegistryFactory.t) {A : Type} (m : M RegistryFactory.world A)
    : Prop :=
  ∀ w w',
    RegistryFactory.instance w = i → Inv w → final (m w) = Some w' →
    Inv w' ∧ RegistryFactory.instance w' = i.

(** Well formed, with containers that share nothing. *)
Definition sound (w : RegistryFactory.world) : Prop :=
  wf_world w ∧ separate w.

(** A container once its [setUp] ran on the store [σ]: a lazy one as it
    was, another with the items whose [setUp] reports success in [σ]. *)
Definition settled (σ : Store) (r : RegistryCore.t) : RegistryCore.t :=
  if RegistryCore.auto_setup_ r
  then with_items r
         (filter (λ item, setUp_ok σ item.2 = true) (RegistryCore.items_ r))
  else r.

(** What the Directory's [setUp] leaves of the objects of a container [r]:
    those of a lazy container as they were in [σ], those of another, when
    their [setUp] reports success in [σ], as their own [setUp] leaves
    them. *)
Definition kept (σ σ' : Store) (r : RegistryCore.t) : Prop :=
  ∀ k l o,
    RegistryCore.items_ r !! k = Some l → objs σ !! l = Some o →
    if RegistryCore.auto_setup_ r
    then setUp_ok σ l = true → objs σ' !! l = Some (after_setUp o)
    else objs σ' !! l = Some o.
(** * Proofs *)

(** ** Iteration over a [std::map] *)

Lemma map_iter_perm {V : Type} (m : gmap string V) :
  map_iter m ≡ₚ map_to_list m.
Proof. apply merge_sort_Permutation. Qed.

Lemma elem_of_map_iter {V : Type} (m : gmap string V) (k : string) (v : V) :
  (k, v) ∈ map_iter m ↔ m !! k = Some v.
Proof. rewrite map_iter_perm. apply elem_of_map_to_list. Qed.

Lemma NoDup_map_iter_fst {V : Type} (m : gmap string V) :
  NoDup (map_iter m).*1.
Proof. rewrite map_iter_perm. apply NoDup_fst_map_to_list. Qed.

Lemma NoDup_map_iter_snd (m : gmap string loc) :
  unshared m → NoDup (map_iter m).*2.
Proof. unfold unshared. by rewrite map_iter_perm. Qed.

#[local] Instance key_le_total {V : Type} : Total (@key_le V).
Proof. intros a b. apply String.leb_total. Qed.

Lemma map_iter_sorted {V : Type} (m : gmap string V) :
  Sorted key_le (map_iter m).
Proof. apply Sorted_merge_sort. apply _. Qed.

Lemma map_count_Some {V : Type} (m : gmap string V) (k : string) (v : V) :
  m !! k = Some v → map_count m k = 1.
Proof. unfold map_count. by intros ->. Qed.

Lemma map_count_None {V : Type} (m : gmap string V) (k : string) :
  m !! k = None → map_count m k = 0.
Proof. unfold map_count. by intros ->. Qed.

(** ** Virtual calls through a live handle *)

Section item.
Context (σ : Store) (l : loc) (o : Plugin.obj).
Hypothesis Hl : objs σ !! l = Some o.

Lemma Item_setUp_live :
    Item.setUp l σ
    = Ret (Plugin.setUp (Plugin.cls o) (Plugin.st o)).1
          (with_objs σ (<[l := after_setUp o]> (objs σ)) [Ev_setUp l]).
Proof. unfold Item.setUp, Item.deref, bind. by rewrite Hl. Qed.

Lemma Item_tearDown_live :
    Item.tearDown l σ
    = Ret tt (with_objs σ (<[l := after_tearDown o]> (objs σ)) [Ev_tearDown l]).
Proof. unfold Item.tearDown, Item.deref, bind. by rewrite Hl. Qed.

Lemma Item_routeInfo_live :
    Item.routeInfo l σ
    = Ret (Plugin.routeInfo (Plugin.cls o) (Plugin.st o)).1
          (with_objs σ (<[l := after_routeInfo o]> (objs σ)) [Ev_routeInfo l]).
Proof. unfold Item.routeInfo, Item.deref, bind. by rewrite Hl. Qed.

Lemma Item_call_live (request : PluginRequest) (response : PluginResponse) :
    Item.call l request response σ
    = Ret (Plugin.call (Plugin.cls o) (Plugin.st o) request response).1
          (with_objs σ (<[l := after_call request response o]> (objs σ))
                     [Ev_call l request]).
Proof. unfold Item.call, Item.deref, bind. by rewrite Hl. Qed.
End item.

Lemma with_objs_nil (σ : Store) : with_objs σ (objs σ) [] = σ.
Proof. destruct σ. unfold with_objs. simpl. by rewrite app_nil_r. Qed.

(** ** RegistryCore: lookup, registration and removal *)

(** No item is registered as "goodbye" in [greeter], and [get] of that name
    does not return: it throws. *)
Lemma get_absent_throws :
  RegistryCore.items_ greeter !! "goodbye" = None
  ∧ RegistryCore.get "goodbye" (greeter, greeter_store)
    = Throw out_of_range (greeter, greeter_store).
Proof. split; reflexivity. Qed.

Lemma get_absent (item_name : string) (r : RegistryCore.t) (σ : Store) :
  RegistryCore.items_ r !! item_name = None →
  RegistryCore.get item_name (r, σ) = Throw out_of_range (r, σ).
Proof.
  intros Hk. unfold RegistryCore.get, RegistryCore.items, map_at, bind, gets.
  simpl. by rewrite Hk.
Qed.

Lemma get_present (item_name : string) (r : RegistryCore.t) (σ : Store)
    (l : loc) :
  RegistryCore.items_ r !! item_name = Some l →
  RegistryCore.get item_name (r, σ) = Ret l (r, σ).
Proof.
  intros Hk. unfold RegistryCore.get, RegistryCore.items, map_at, bind, gets.
  simpl. by rewrite Hk.
Qed.

(** C1, as the header has it: [get] on an absent name raises
    [std::out_of_range] (the [at] of [std::map]) and leaves the container and
    the store as they were; on a present name it returns the stored handle,
    and no implementation code runs. *)
Theorem get_spec (r : RegistryCore.t) (σ : Store) (item_name : string) :
  (RegistryCore.items_ r !! item_name = None →
     RegistryCore.get item_name (r, σ) = Throw out_of_range (r, σ))
  ∧ (∀ l, RegistryCore.items_ r !! item_name = Some l →
     RegistryCore.get item_name (r, σ) = Ret l (r, σ)).
Proof. split; [apply get_absent|intros l; apply get_present]. Qed.

Lemma get_spec_witness :
  RegistryCore.get "goodbye" (greeter, greeter_store)
  = Throw out_of_range (greeter, greeter_store)
  ∧ RegistryCore.get "hello" (greeter, greeter_store)
    = Ret 1%positive (greeter, greeter_store).
Proof.
  split.
  - apply (proj1 (get_spec greeter greeter_store "goodbye")). reflexivity.
  - apply (proj2 (get_spec greeter greeter_store "hello")). reflexivity.
Defined.

Lemma add_fresh (Item : Plugin.class) (item_name : string)
    (r : RegistryCore.t) (σ : Store) :
  RegistryCore.items_ r !! item_name = None →
  RegistryCore.add Item item_name (r, σ)
  = Ret (mkStatus 0 "OK")
        (with_items r (<[item_name := fresh (dom (objs σ))]>
                         (RegistryCore.items_ r)),
         with_objs σ
           (<[fresh (dom (objs σ)) :=
                Plugin.mkObj item_name Item (Plugin.ctor Item)]> (objs σ))
           [Ev_new (fresh (dom (objs σ)))]).
Proof.
  intros Hk.
  unfold RegistryCore.add, RegistryCore.items, bind, gets. simpl.
  rewrite (map_count_None _ _ Hk). simpl.
  unfold RegistryCore.heap, zoom, Item.new_, Item.setName, Item.deref,
    Item.assign, Item.emit, bind, gets, modify, ret. simpl.
  rewrite lookup_insert_eq. simpl.
  unfold with_items, with_objs, Plugin.with_name. simpl.
  by rewrite insert_insert_eq.
Qed.

Lemma add_duplicate (Item : Plugin.class) (item_name : string)
    (r : RegistryCore.t) (σ : Store) (l : loc) :
  RegistryCore.items_ r !! item_name = Some l →
  RegistryCore.add Item item_name (r, σ) = Ret (DuplicateItem item_name) (r, σ).
Proof.
  intros Hk.
  unfold RegistryCore.add, RegistryCore.items, bind, gets. simpl.
  by rewrite (map_count_Some _ _ _ Hk).
Qed.

Lemma call_absent (item_name : string) (request : PluginRequest)
    (response : PluginResponse) (r : RegistryCore.t) (σ : Store) :
  RegistryCore.items_ r !! item_name = None →
  RegistryCore.call item_name request response (r, σ)
  = Ret (ItemNotFound item_name, response) (r, σ).
Proof.
  intros Hk.
  unfold RegistryCore.call, RegistryCore.items, bind, gets. simpl.
  by rewrite (map_count_None _ _ Hk).
Qed.

Lemma call_present (item_name : string) (request : PluginRequest)
    (response : PluginResponse) (r : RegistryCore.t) (σ : Store)
    (l : loc) (o : Plugin.obj) :
  RegistryCore.items_ r !! item_name = Some l →
  objs σ !! l = Some o →
  RegistryCore.call item_name request response (r, σ)
  = Ret (Plugin.call (Plugin.cls o) (Plugin.st o) request response).1
        (r, with_objs σ (<[l := after_call request response o]> (objs σ))
                      [Ev_call l request]).
Proof.
  intros Hk Hl.
  unfold RegistryCore.call, RegistryCore.items_index, RegistryCore.items,
    bind, gets. simpl.
  rewrite (map_count_Some _ _ _ Hk). simpl. rewrite Hk.
  unfold RegistryCore.heap, zoom, ret. cbn [fst snd].
  by rewrite (Item_call_live _ _ _ Hl).
Qed.

(** C5: [add] under a name already present fails with DuplicateItem, runs no
    implementation code and changes neither the container nor the store, so
    that a [call] to the existing item afterwards is the [call] it would
    have been before; under an absent name it allocates one object of the
    class, runs its constructor, names it [item_name], stores its handle
    under [item_name] and succeeds. *)
Theorem add_spec (Item : Plugin.class) (item_name : string)
    (r : RegistryCore.t) (σ : Store) :
  (∀ l, RegistryCore.items_ r !! item_name = Some l →
     RegistryCore.add Item item_name (r, σ)
     = Ret (DuplicateItem item_name) (r, σ)
     ∧ ok (DuplicateItem item_name) = false
     ∧ ∀ request response,
         (RegistryCore.add Item item_name;;
          RegistryCore.call item_name request response) (r, σ)
         = RegistryCore.call item_name request response (r, σ))
  ∧ (RegistryCore.items_ r !! item_name = None →
     let l := fresh (dom (objs σ)) in
     objs σ !! l = None
     ∧ RegistryCore.add Item item_name (r, σ)
       = Ret (mkStatus 0 "OK")
             (with_items r (<[item_name := l]> (RegistryCore.items_ r)),
              with_objs σ
                (<[l := Plugin.mkObj item_name Item (Plugin.ctor Item)]>
                   (objs σ))
                [Ev_new l])
     ∧ ok (mkStatus 0 "OK") = true).
Proof.
  split.
  - intros l Hk. rewrite (add_duplicate _ _ _ _ _ Hk).
    split; [done|]. split; [done|]. intros request response.
    unfold bind at 1. by rewrite (add_duplicate _ _ _ _ _ Hk).
  - intros Hk l. split; [|split; [|done]].
    + apply not_elem_of_dom. apply is_fresh.
    + by apply add_fresh.
Qed.

Lemma add_spec_witness :
  RegistryCore.add Plugin.base "hello" (greeter, greeter_store)
  = Ret (DuplicateItem "hello") (greeter, greeter_store)
  ∧ RegistryCore.add Plugin.base "goodbye" (greeter, greeter_store)
    = Ret (mkStatus 0 "OK")
          (with_items greeter
             (<[ "goodbye" := 3%positive ]> (RegistryCore.items_ greeter)),
           with_objs greeter_store
             (<[ 3%positive := Plugin.mkObj "goodbye" Plugin.base tt ]>
                (objs greeter_store))
             [Ev_new 3%positive]).
Proof.
  split.
  - apply (proj1 (add_spec Plugin.base "hello" greeter greeter_store)
             1%positive).
    reflexivity.
  - apply (proj2 (add_spec Plugin.base "goodbye" greeter greeter_store)).
    reflexivity.
Defined.

Lemma remove_absent (item_name : string) (r : RegistryCore.t) (σ : Store) :
  RegistryCore.items_ r !! item_name = None →
  RegistryCore.remove item_name (r, σ) = Ret tt (r, σ).
Proof.
  intros Hk.
  unfold RegistryCore.remove, RegistryCore.items, bind, gets. simpl.
  by rewrite (map_count_None _ _ Hk).
Qed.

Lemma remove_present (item_name : string) (r : RegistryCore.t) (σ : Store)
    (l : loc) (o : Plugin.obj) :
  RegistryCore.items_ r !! item_name = Some l →
  objs σ !! l = Some o →
  RegistryCore.remove item_name (r, σ)
  = Ret tt (with_items r (delete item_name (RegistryCore.items_ r)),
            with_objs σ (<[l := after_tearDown o]> (objs σ)) [Ev_tearDown l]).
Proof.
  intros Hk Hl.
  unfold RegistryCore.remove, RegistryCore.items_index, RegistryCore.items,
    bind, gets. simpl.
  rewrite (map_count_Some _ _ _ Hk). simpl. rewrite Hk.
  unfold RegistryCore.heap, zoom, ret. cbn [fst snd].
  by rewrite (Item_tearDown_live _ _ _ Hl).
Qed.

Lemma exists_spec (item_name : string) (r : RegistryCore.t) (σ : Store) :
  RegistryCore.exists_ item_name (r, σ)
  = Ret (bool_decide (is_Some (RegistryCore.items_ r !! item_name))) (r, σ).
Proof.
  unfold RegistryCore.exists_, RegistryCore.items, bind, gets, ret,
    map_count. simpl.
  destruct (RegistryCore.items_ r !! item_name) as [l|] eqn:Hk.
  - rewrite !bool_decide_eq_true_2; [done|by eexists|lia].
  - rewrite !bool_decide_eq_false_2; [done|by intros []|lia].
Qed.

(** C8: [remove] of a present item runs that item's [tearDown] once, and
    nothing else, then erases the name; [exists] then answers false and
    [call] fails with ItemNotFound without touching the response.  [remove]
    of an absent name returns with the container and the store as they
    were. *)
Theorem remove_spec (item_name : string) (r : RegistryCore.t) (σ : Store) :
  (∀ l o, RegistryCore.items_ r !! item_name = Some l →
     objs σ !! l = Some o →
     let r' := with_items r (delete item_name (RegistryCore.items_ r)) in
     let σ' := with_objs σ (<[l := after_tearDown o]> (objs σ))
                         [Ev_tearDown l] in
     RegistryCore.remove item_name (r, σ) = Ret tt (r', σ')
     ∧ RegistryCore.items_ r' !! item_name = None
     ∧ RegistryCore.exists_ item_name (r', σ') = Ret false (r', σ')
     ∧ ∀ request response,
         RegistryCore.call item_name request response (r', σ')
         = Ret (ItemNotFound item_name, response) (r', σ'))
  ∧ (RegistryCore.items_ r !! item_name = None →
     RegistryCore.remove item_name (r, σ) = Ret tt (r, σ)).
Proof.
  split; [|apply remove_absent].
  intros l o Hk Hl r' σ'.
  assert (RegistryCore.items_ r' !! item_name = None) as Hgone
    by apply lookup_delete_eq.
  split; [by apply remove_present|]. split; [done|]. split.
  - rewrite exists_spec, Hgone. rewrite bool_decide_eq_false_2; [done|].
    by intros [].
  - intros request response. by apply call_absent.
Qed.

Lemma remove_spec_witness :
  RegistryCore.remove "broken" (greeter, greeter_store)
  = Ret tt
      (with_items greeter (delete "broken" (RegistryCore.items_ greeter)),
       with_objs greeter_store
         (<[ 2%positive := Plugin.mkObj "broken" broken_class 1 ]>
            (objs greeter_store))
         [Ev_tearDown 2%positive])
  ∧ RegistryCore.remove "goodbye" (greeter, greeter_store)
    = Ret tt (greeter, greeter_store).
Proof.
  split.
  - apply (proj1 (remove_spec "broken" greeter greeter_store) 2%positive
             (Plugin.mkObj "broken" broken_class 0)); reflexivity.
  - apply (proj2 (remove_spec "goodbye" greeter greeter_store)). reflexivity.
Defined.

Lemma setUp_not_auto (r : RegistryCore.t) (σ : Store) :
  RegistryCore.auto_setup_ r = false →
  RegistryCore.setUp (r, σ) = Ret tt (r, σ).
Proof.
  intros Hlazy. unfold RegistryCore.setUp, bind, gets. simpl.
  by rewrite Hlazy.
Qed.

(** C6: [setUp] of a lazy container returns at once: no [setUp] of an item
    runs (the log and every object are as before) and the item mapping is
    as it was. *)
Theorem setUp_lazy (r : RegistryCore.t) (σ : Store) :
  RegistryCore.auto_setup_ r = false →
  RegistryCore.setUp (r, σ) = Ret tt (r, σ).
Proof. apply setUp_not_auto. Qed.

Lemma setUp_lazy_witness :
  RegistryCore.setUp (lazy_greeter, greeter_store)
  = Ret tt (lazy_greeter, greeter_store).
Proof. apply setUp_lazy. reflexivity. Defined.

(** ** Objects updated in turn *)

Lemma insert_as_alter (f : Plugin.obj → Plugin.obj) (m : gmap loc Plugin.obj)
    (l : loc) (o : Plugin.obj) :
  m !! l = Some o → <[l := f o]> m = alter f l m.
Proof.
  intros Hl. apply map_eq. intros l'.
  destruct (decide (l = l')) as [<-|Hne].
  - by rewrite lookup_insert_eq, lookup_alter_eq, Hl.
  - by rewrite lookup_insert_ne, lookup_alter_ne.
Qed.

Lemma lookup_alter_all_notin (f : Plugin.obj → Plugin.obj) (ls : list loc) :
  ∀ (m : gmap loc Plugin.obj) (l : loc),
    l ∉ ls → alter_all f ls m !! l = m !! l.
Proof.
  induction ls as [|x ls IH]; intros m l Hl; [done|].
  apply not_elem_of_cons in Hl as [Hne Hl]. simpl.
  rewrite (IH _ _ Hl). by apply lookup_alter_ne.
Qed.

Lemma lookup_alter_all_in (f : Plugin.obj → Plugin.obj) (ls : list loc) :
  ∀ (m : gmap loc Plugin.obj) (l : loc),
    NoDup ls → l ∈ ls → alter_all f ls m !! l = f <$> m !! l.
Proof.
  induction ls as [|x ls IH]; intros m l Hnd Hl; [by apply elem_of_nil in Hl|].
  apply NoDup_cons in Hnd as [Hx Hnd]. simpl.
  apply elem_of_cons in Hl as [->|Hl].
  - rewrite lookup_alter_all_notin by done. apply lookup_alter_eq.
  - rewrite (IH _ _ Hnd Hl). rewrite lookup_alter_ne; [done|].
    intros ->. contradiction.
Qed.

Lemma dom_alter_all (f : Plugin.obj → Plugin.obj) (ls : list loc) :
  ∀ m : gmap loc Plugin.obj, dom (alter_all f ls m) = dom m.
Proof.
  induction ls as [|x ls IH]; intros m; [done|]. simpl.
  rewrite IH. apply dom_alter_L.
Qed.

Lemma with_objs_with_objs (σ : Store) (m1 m2 : gmap loc Plugin.obj)
    (es1 es2 : list Event) :
  with_objs (with_objs σ m1 es1) m2 es2 = with_objs σ m2 (es1 ++ es2).
Proof. unfold with_objs. simpl. by rewrite app_assoc. Qed.

Lemma filter_ext_in {A : Type} (P Q : A → Prop)
    `{!∀ x, Decision (P x)} `{!∀ x, Decision (Q x)} (l : list A) :
  (∀ x, x ∈ l → P x ↔ Q x) → filter P l = filter Q l.
Proof.
  induction l as [|x l IH]; intros Hext; [done|].
  rewrite !filter_cons.
  assert (filter P l = filter Q l) as ->.
  { apply IH. intros y Hy. apply Hext. by right. }
  destruct (decide (P x)) as [HP|HP], (decide (Q x)) as [HQ|HQ]; try done.
  - exfalso. apply HQ. apply Hext; [by left|done].
  - exfalso. apply HP. apply Hext; [by left|done].
Qed.

(** ** The two loops of [RegistryCore::setUp] *)

Lemma setUp_ok_insert_ne (σ : Store) (l l' : loc) (o : Plugin.obj)
    (es : list Event) :
  l ≠ l' →
  setUp_ok (with_objs σ (<[l := o]> (objs σ)) es) l' = setUp_ok σ l'.
Proof. intros Hne. unfold setUp_ok. simpl. by rewrite lookup_insert_ne. Qed.

Lemma first_loop (r : RegistryCore.t) (its : list (string * loc)) :
  ∀ (σ : Store) (acc : list string),
    NoDup its.*2 →
    Forall (λ item, is_Some (objs σ !! item.2)) its →
    for_fold its acc (λ failed item,
      let* s := RegistryCore.heap (Item.setUp item.2) in
      if negb (ok s) then ret (failed ++ [item.1])%list else ret failed) (r, σ)
    = Ret (acc ++ (filter (failing σ) its).*1)%list
          (r, with_objs σ (alter_all after_setUp its.*2 (objs σ))
                        (Ev_setUp <$> its.*2)).
Proof.
  induction its as [|[k l] its IH]; intros σ acc Hnd Hlive.
  - simpl. unfold ret. by rewrite app_nil_r, with_objs_nil.
  - apply NoDup_cons in Hnd as [Hl Hnd].
    apply Forall_cons in Hlive as [[o Ho] Hlive]. simpl in Ho, Hl.
    cbn [for_fold]. unfold bind at 1. unfold bind at 1.
    unfold RegistryCore.heap, zoom. cbn [fst snd].
    rewrite (Item_setUp_live _ _ _ Ho).
    set (σ1 := with_objs σ (<[l := after_setUp o]> (objs σ)) [Ev_setUp l]).
    assert (filter (failing σ1) its = filter (failing σ) its) as Hfilter.
    { apply filter_ext_in. intros [k' l'] Hin. unfold failing. simpl.
      subst σ1. rewrite setUp_ok_insert_ne; [done|].
      intros ->. apply Hl. apply list_elem_of_fmap. by exists (k', l'). }
    assert (Forall (λ item, is_Some (objs σ1 !! item.2)) its) as Hlive1.
    { eapply Forall_impl; [exact Hlive|]. intros [k' l'] Hs. simpl in *.
      rewrite lookup_insert. case_decide; [by eexists|done]. }
    assert (setUp_ok σ l = ok (Plugin.setUp (Plugin.cls o) (Plugin.st o)).1)
      as Hok by (unfold setUp_ok; by rewrite Ho).
    rewrite filter_cons.
    destruct (decide (failing σ (k, l))) as [Hf|Hf];
      unfold failing in Hf; cbn [snd] in Hf; rewrite Hok in Hf;
      [|apply not_false_is_true in Hf]; rewrite Hf; cbn [negb];
      unfold ret at 1; rewrite (IH _ _ Hnd Hlive1), Hfilter;
      subst σ1; rewrite with_objs_with_objs; cbn [objs with_objs];
      rewrite (insert_as_alter after_setUp _ _ _ Ho); [|done].
    by rewrite <- app_assoc.
Qed.

Lemma lookup_delete_all (ks : list string) :
  ∀ (m : gmap string loc) (k : string),
    delete_all ks m !! k = if decide (k ∈ ks) then None else m !! k.
Proof.
  induction ks as [|x ks IH]; intros m k; unfold delete_all; cbn [foldl].
  - rewrite decide_False; [done|apply not_elem_of_nil].
  - fold (delete_all ks (delete x m)). rewrite IH. destruct (decide (k ∈ ks)) as [Hin|Hin].
    + rewrite decide_True; [done|by right].
    + destruct (decide (k = x)) as [->|Hne].
      * rewrite decide_True; [|by left]. apply lookup_delete_eq.
      * rewrite decide_False; [by apply lookup_delete_ne|].
        intros [?|?]%elem_of_cons; done.
Qed.

Lemma second_loop (failed : list (string * loc)) :
  ∀ (r : RegistryCore.t) (σ : Store),
    NoDup failed.*1 →
    Forall (λ item, RegistryCore.items_ r !! item.1 = Some item.2
                    ∧ is_Some (objs σ !! item.2)) failed →
    for_each failed.*1 RegistryCore.remove (r, σ)
    = Ret tt (with_items r (delete_all failed.*1 (RegistryCore.items_ r)),
              with_objs σ (alter_all after_tearDown failed.*2 (objs σ))
                        (Ev_tearDown <$> failed.*2)).
Proof.
  induction failed as [|[k l] failed IH]; intros r σ Hnd Hin.
  - simpl. unfold ret. rewrite with_objs_nil. by destruct r.
  - apply NoDup_cons in Hnd as [Hk Hnd].
    apply Forall_cons in Hin as [[Hkl [o Ho]] Hin]. simpl in Hkl, Ho, Hk.
    cbn [for_each fmap list_fmap fst snd]. unfold bind at 1.
    rewrite (remove_present _ _ _ _ _ Hkl Ho).
    rewrite IH; [|done|].
    + rewrite with_objs_with_objs. cbn [objs with_objs].
      rewrite (insert_as_alter after_tearDown _ _ _ Ho). done.
    + apply Forall_forall. intros [k' l'] Hmem.
      destruct (proj1 (Forall_forall _ _) Hin _ Hmem) as [Hkl' Hs].
      simpl in *. split.
      * rewrite lookup_delete_ne; [done|]. intros ->. apply Hk.
        apply list_elem_of_fmap. by exists (k', l').
      * rewrite lookup_insert. case_decide; [by eexists|done].
Qed.

Lemma live_map_iter (m : gmap string loc) (σ : Store) :
  live m σ → Forall (λ item, is_Some (objs σ !! item.2)) (map_iter m).
Proof.
  intros Hlive. apply Forall_forall. intros [k l] Hin.
  apply elem_of_map_iter in Hin. exact (Hlive k l Hin).
Qed.

Lemma NoDup_filter_fmap {A B : Type} (f : A → B) (P : A → Prop)
    `{!∀ x, Decision (P x)} (l : list A) :
  NoDup (f <$> l) → NoDup (f <$> filter P l).
Proof.
  intros Hnd. eapply sublist_NoDup; [exact Hnd|].
  apply fmap_sublist, sublist_filter.
Qed.

Lemma elem_of_failed (m : gmap string loc) (σ : Store) (k : string) :
  k ∈ (filter (failing σ) (map_iter m)).*1
  ↔ ∃ l, m !! k = Some l ∧ setUp_ok σ l = false.
Proof.
  rewrite list_elem_of_fmap. split.
  - intros ([k' l] & -> & Hin). apply list_elem_of_filter in Hin as [Hf Hin].
    exists l. split; [by apply elem_of_map_iter|done].
  - intros (l & Hk & Hf). exists (k, l). split; [done|].
    apply list_elem_of_filter. split; [done|by apply elem_of_map_iter].
Qed.

Lemma delete_failed (m : gmap string loc) (σ : Store) :
  delete_all (filter (failing σ) (map_iter m)).*1 m
  = filter (λ item, setUp_ok σ item.2 = true) m.
Proof.
  apply map_eq. intros k. rewrite lookup_delete_all.
  destruct (decide (k ∈ (filter (failing σ) (map_iter m)).*1)) as [Hin|Hin].
  - symmetry. apply map_lookup_filter_None. right. intros l Hk.
    apply elem_of_failed in Hin as (l' & Hk' & Hf). simpl. congruence.
  - destruct (m !! k) as [l|] eqn:Hk.
    + symmetry. apply map_lookup_filter_Some. split; [done|]. simpl.
      apply not_false_is_true. intros Hf. apply Hin. apply elem_of_failed.
      by exists l.
    + symmetry. apply map_lookup_filter_None. by left.
Qed.

Lemma setUp_items_spec (r : RegistryCore.t) (σ : Store) :
  live (RegistryCore.items_ r) σ →
  unshared (RegistryCore.items_ r) →
  RegistryCore.setUp_items (r, σ)
  = Ret (filter (failing σ) (map_iter (RegistryCore.items_ r))).*1
        (r, with_objs σ
              (alter_all after_setUp (map_iter (RegistryCore.items_ r)).*2
                 (objs σ))
              (Ev_setUp <$> (map_iter (RegistryCore.items_ r)).*2)).
Proof.
  intros Hlive Hun.
  unfold RegistryCore.setUp_items, RegistryCore.items, bind at 1, gets.
  cbn [fst].
  by rewrite (first_loop r _ σ [] (NoDup_map_iter_snd _ Hun)
                (live_map_iter _ _ Hlive)).
Qed.

Lemma setUp_run (r : RegistryCore.t) (σ : Store) :
  RegistryCore.auto_setup_ r = true →
  live (RegistryCore.items_ r) σ →
  unshared (RegistryCore.items_ r) →
  let m := RegistryCore.items_ r in
  let failed := filter (failing σ) (map_iter m) in
  let σ1 := with_objs σ (alter_all after_setUp (map_iter m).*2 (objs σ))
                      (Ev_setUp <$> (map_iter m).*2) in
  RegistryCore.setUp (r, σ)
  = Ret tt (with_items r (filter (λ item, setUp_ok σ item.2 = true) m),
            with_objs σ1 (alter_all after_tearDown failed.*2 (objs σ1))
                      (Ev_tearDown <$> failed.*2)).
Proof.
  intros Hauto Hlive Hun m failed σ1.
  unfold RegistryCore.setUp, bind at 1, gets. cbn [fst]. rewrite Hauto.
  cbn [negb]. unfold bind. rewrite (setUp_items_spec r σ Hlive Hun).
  change (for_each failed.*1 RegistryCore.remove (r, σ1)
          = Ret tt (with_items r (filter (λ item, setUp_ok σ item.2 = true) m),
                    with_objs σ1
                      (alter_all after_tearDown failed.*2 (objs σ1))
                      (Ev_tearDown <$> failed.*2))).
  rewrite (second_loop failed r σ1).
  - unfold failed. by rewrite delete_failed.
  - apply NoDup_filter_fmap, NoDup_map_iter_fst.
  - apply Forall_forall. intros [k l] Hin.
    apply list_elem_of_filter in Hin as [_ Hin].
    apply elem_of_map_iter in Hin. split; [done|].
    apply elem_of_dom. unfold σ1. cbn [objs with_objs].
    rewrite dom_alter_all. apply elem_of_dom. exact (Hlive k l Hin).
Qed.

(** C3: for a container that is not lazy, whose handles are live and
    unshared, the first loop of [setUp] runs the [setUp] of every current
    item once, in key order, and returns the names of those that reported
    failure, having changed the objects but not the item mapping; the second
    loop then runs [tearDown] on exactly those and erases them.  What is
    left is the mapping restricted to the items whose [setUp] succeeded,
    and a [call] to any of them is delivered to its object. *)
Theorem setUp_spec (r : RegistryCore.t) (σ : Store) :
  RegistryCore.auto_setup_ r = true →
  live (RegistryCore.items_ r) σ →
  unshared (RegistryCore.items_ r) →
  let m := RegistryCore.items_ r in
  let failed := filter (failing σ) (map_iter m) in
  let σ1 := with_objs σ (alter_all after_setUp (map_iter m).*2 (objs σ))
                      (Ev_setUp <$> (map_iter m).*2) in
  let σ2 := with_objs σ1 (alter_all after_tearDown failed.*2 (objs σ1))
                      (Ev_tearDown <$> failed.*2) in
  let r' := with_items r (filter (λ item, setUp_ok σ item.2 = true) m) in
  RegistryCore.setUp_items (r, σ) = Ret failed.*1 (r, σ1)
  ∧ NoDup (map_iter m).*2
  ∧ (∀ l, l ∈ (map_iter m).*2 ↔ ∃ k, m !! k = Some l)
  ∧ (∀ k, k ∈ failed.*1 ↔ ∃ l, m !! k = Some l ∧ setUp_ok σ l = false)
  ∧ RegistryCore.setUp (r, σ) = Ret tt (r', σ2)
  ∧ log σ2 = (log σ ++ (Ev_setUp <$> (map_iter m).*2)
                    ++ (Ev_tearDown <$> failed.*2))%list
  ∧ (∀ k l, m !! k = Some l → setUp_ok σ l = false →
       RegistryCore.items_ r' !! k = None)
  ∧ (∀ k l o, m !! k = Some l → objs σ !! l = Some o →
       setUp_ok σ l = true →
       RegistryCore.items_ r' !! k = Some l
       ∧ objs σ2 !! l = Some (after_setUp o)
       ∧ ∀ request response,
           RegistryCore.call k request response (r', σ2)
           = Ret (Plugin.call (Plugin.cls (after_setUp o))
                    (Plugin.st (after_setUp o)) request response).1
                 (r', with_objs σ2
                        (<[l := after_call request response (after_setUp o)]>
                           (objs σ2))
                        [Ev_call l request])).
Proof.
  intros Hauto Hlive Hun m failed σ1 σ2 r'.
  pose proof (setUp_items_spec r σ Hlive Hun) as Hfirst.
  pose proof (NoDup_map_iter_snd _ Hun) as Hnd2.
  assert (∀ k l, m !! k = Some l → l ∈ (map_iter m).*2) as Hhandles.
  { intros k l Hk. apply list_elem_of_fmap. exists (k, l).
    split; [done|by apply elem_of_map_iter]. }
  split; [exact Hfirst|]. split; [exact Hnd2|]. split.
  { intros l. split; [|intros [k Hk]; eauto].
    intros ([k l'] & -> & Hin)%list_elem_of_fmap. exists k.
    by apply elem_of_map_iter. }
  split; [apply elem_of_failed|].
  split; [exact (setUp_run r σ Hauto Hlive Hun)|].
  split; [unfold σ2, σ1, with_objs; cbn [log]; by rewrite app_assoc|].
  split.
  { intros k l Hk Hf. apply map_lookup_filter_None. right.
    intros l' Hk'. simpl. congruence. }
  intros k l o Hk Ho Hok.
  assert (RegistryCore.items_ r' !! k = Some l) as Hk'.
  { apply map_lookup_filter_Some. by split. }
  assert (objs σ2 !! l = Some (after_setUp o)) as Ho'.
  { unfold σ2, σ1. cbn [objs with_objs].
    rewrite lookup_alter_all_notin.
    - rewrite lookup_alter_all_in by eauto. by rewrite Ho.
    - intros ([k' l'] & -> & Hin)%list_elem_of_fmap.
      apply list_elem_of_filter in Hin as [Hf _]. unfold failing in Hf.
      simpl in *. congruence. }
  split; [done|]. split; [done|]. intros request response.
  by apply call_present.
Qed.

Lemma greeter_live : live (RegistryCore.items_ greeter) greeter_store.
Proof. apply (bool_decide_unpack _). vm_compute. exact I. Defined.

Lemma greeter_unshared : unshared (RegistryCore.items_ greeter).
Proof. apply (bool_decide_unpack _). vm_compute. exact I. Defined.

Lemma setUp_spec_witness :
  ∃ r' σ',
    RegistryCore.setUp (greeter, greeter_store) = Ret tt (r', σ')
    ∧ RegistryCore.items_ r' !! "broken" = None
    ∧ RegistryCore.items_ r' !! "hello" = Some 1%positive
    ∧ log σ' = [Ev_new 1%positive; Ev_new 2%positive;
                Ev_setUp 2%positive; Ev_setUp 1%positive;
                Ev_tearDown 2%positive].
Proof.
  destruct (setUp_spec greeter greeter_store)
    as (_ & _ & _ & _ & Hrun & Hlog & Hfailed & Hkept);
    [reflexivity|exact greeter_live|exact greeter_unshared|].
  eexists _, _. split; [exact Hrun|]. split.
  { apply (Hfailed "broken" 2%positive); reflexivity. }
  split.
  { apply (Hkept "hello" 1%positive (Plugin.mkObj "hello" hello_class tt));
      reflexivity. }
  rewrite Hlog. vm_compute. reflexivity.
Defined.

(** ** Unshared handles *)

Lemma NoDup_fmap_inj_in {A B : Type} (f : A → B) (l : list A) :
  NoDup (f <$> l) → ∀ x y, x ∈ l → y ∈ l → f x = f y → x = y.
Proof.
  induction l as [|a l IH]; intros Hnd x y Hx Hy Hxy.
  - by apply elem_of_nil in Hx.
  - apply NoDup_cons in Hnd as [Ha Hnd].
    apply elem_of_cons in Hx as [->|Hx]; apply elem_of_cons in Hy as [->|Hy].
    + done.
    + exfalso. apply Ha. rewrite Hxy. by apply list_elem_of_fmap_2.
    + exfalso. apply Ha. rewrite <- Hxy. by apply list_elem_of_fmap_2.
    + by apply IH.
Qed.

Lemma unshared_inj (m : gmap string loc) :
  unshared m
  ↔ ∀ k1 k2 l, m !! k1 = Some l → m !! k2 = Some l → k1 = k2.
Proof.
  unfold unshared. split.
  - intros Hnd k1 k2 l H1 H2.
    apply elem_of_map_to_list in H1, H2.
    by pose proof (NoDup_fmap_inj_in snd _ Hnd _ _ H1 H2 eq_refl) as [= ->].
  - intros Hinj. apply NoDup_fmap_2_strong; [|apply NoDup_map_to_list].
    intros [k1 l1] [k2 l2] H1%elem_of_map_to_list H2%elem_of_map_to_list Heq.
    simpl in Heq. subst l2. by rewrite (Hinj _ _ _ H1 H2).
Qed.

Lemma unshared_delete (m : gmap string loc) (k : string) :
  unshared m → unshared (delete k m).
Proof.
  rewrite !unshared_inj. intros Hinj k1 k2 l H1 H2.
  apply lookup_delete_Some in H1 as [_ H1], H2 as [_ H2]. eauto.
Qed.

Lemma live_delete (m : gmap string loc) (k : string) (σ : Store) :
  live m σ → live (delete k m) σ.
Proof. apply map_Forall_delete. Qed.

Lemma live_dom (m : gmap string loc) (σ σ' : Store) :
  dom (objs σ') = dom (objs σ) → live m σ → live m σ'.
Proof.
  intros Hdom Hlive k l Hk. apply elem_of_dom. rewrite Hdom.
  apply elem_of_dom. exact (Hlive k l Hk).
Qed.

(** ** Routes *)

Lemma lookup_insert_routes_notin (rt : loc → RouteInfo)
    (its : list (string * loc)) :
  ∀ (acc : RegistryRoutes) (k : string),
    k ∉ its.*1 → insert_routes rt acc its !! k = acc !! k.
Proof.
  induction its as [|[k0 l0] its IH]; intros acc k Hk; [done|].
  apply not_elem_of_cons in Hk as [Hne Hk]. unfold insert_routes. simpl.
  fold (insert_routes rt (<[k0 := rt l0]> acc) its).
  rewrite (IH _ _ Hk). by apply lookup_insert_ne.
Qed.

Lemma lookup_insert_routes_in (rt : loc → RouteInfo)
    (its : list (string * loc)) :
  ∀ (acc : RegistryRoutes) (k : string) (l : loc),
    NoDup its.*1 → (k, l) ∈ its →
    insert_routes rt acc its !! k = Some (rt l).
Proof.
  induction its as [|[k0 l0] its IH]; intros acc k l Hnd Hin.
  - by apply elem_of_nil in Hin.
  - apply NoDup_cons in Hnd as [Hk0 Hnd]. unfold insert_routes. simpl.
    fold (insert_routes rt (<[k0 := rt l0]> acc) its).
    apply elem_of_cons in Hin as [[= -> ->]|Hin].
    + rewrite lookup_insert_routes_notin by done. apply lookup_insert_eq.
    + by apply IH.
Qed.

Lemma insert_routes_map_iter (rt : loc → RouteInfo) (m : gmap string loc) :
  insert_routes rt ∅ (map_iter m) = rt <$> m.
Proof.
  apply map_eq. intros k. rewrite lookup_fmap.
  destruct (m !! k) as [l|] eqn:Hk; simpl.
  - apply lookup_insert_routes_in; [apply NoDup_map_iter_fst|].
    by apply elem_of_map_iter.
  - rewrite lookup_insert_routes_notin; [done|].
    intros ([k' l] & -> & Hin)%list_elem_of_fmap.
    apply elem_of_map_iter in Hin. simpl in Hk. congruence.
Qed.

Lemma routes_loop (r : RegistryCore.t) (rt : loc → RouteInfo)
    (its : list (string * loc)) :
  ∀ (σ : Store) (acc : RegistryRoutes),
    NoDup its.*2 →
    Forall (λ item, ∃ o, objs σ !! item.2 = Some o
              ∧ rt item.2 = (Plugin.routeInfo (Plugin.cls o) (Plugin.st o)).1)
           its →
    for_fold its acc (λ route_table item,
      let* info := RegistryCore.heap (Item.routeInfo item.2) in
      ret (<[item.1 := info]> route_table)) (r, σ)
    = Ret (insert_routes rt acc its)
          (r, with_objs σ (alter_all after_routeInfo its.*2 (objs σ))
                        (Ev_routeInfo <$> its.*2)).
Proof.
  induction its as [|[k l] its IH]; intros σ acc Hnd Hlive.
  - simpl. unfold ret. by rewrite with_objs_nil.
  - apply NoDup_cons in Hnd as [Hl Hnd].
    apply Forall_cons in Hlive as [(o & Ho & Hrt) Hlive]. simpl in Ho, Hrt, Hl.
    cbn [for_fold]. unfold bind at 1. unfold bind at 1.
    unfold RegistryCore.heap, zoom. cbn [fst snd].
    rewrite (Item_routeInfo_live _ _ _ Ho). unfold ret at 1.
    rewrite IH; [|done|].
    + rewrite with_objs_with_objs. cbn [objs with_objs].
      rewrite (insert_as_alter after_routeInfo _ _ _ Ho).
      unfold insert_routes. simpl. by rewrite Hrt.
    + apply Forall_forall. intros [k' l'] Hmem.
      destruct (proj1 (Forall_forall _ _) Hlive _ Hmem) as (o' & Ho' & Hrt').
      simpl in *. exists o'. split; [|done].
      rewrite lookup_insert_ne; [done|]. intros ->. apply Hl.
      apply list_elem_of_fmap. by exists (k', l').
Qed.

Lemma getRoutes_spec (r : RegistryCore.t) (σ : Store) :
  live (RegistryCore.items_ r) σ →
  unshared (RegistryCore.items_ r) →
  RegistryCore.getRoutes (r, σ)
  = Ret (route_of σ <$> RegistryCore.items_ r)
        (r, with_objs σ
              (alter_all after_routeInfo
                 (map_iter (RegistryCore.items_ r)).*2 (objs σ))
              (Ev_routeInfo <$> (map_iter (RegistryCore.items_ r)).*2)).
Proof.
  intros Hlive Hun.
  unfold RegistryCore.getRoutes, RegistryCore.items, bind at 1, gets.
  cbn [fst].
  rewrite (routes_loop r (route_of σ) _ σ ∅ (NoDup_map_iter_snd _ Hun)).
  - by rewrite insert_routes_map_iter.
  - apply Forall_forall. intros [k l] Hin%elem_of_map_iter.
    destruct (Hlive k l Hin) as [o Ho]. exists o. split; [done|].
    unfold route_of. simpl. by rewrite Ho.
Qed.

(** ** RegistryFactory: through a container handle *)

Lemma arrow_live {A : Type} (w : RegistryFactory.world) (c : loc)
    (r : RegistryCore.t) (method : M RegistryCore.state A) :
  RegistryFactory.cores w !! c = Some r →
  RegistryFactory.arrow (Some c) method w
  = match method (r, RegistryFactory.store w) with
    | Ret a σ => Ret a (with_core w c σ)
    | Throw e σ => Throw e (with_core w c σ)
    | Undef => Undef
    end.
Proof. intros Hc. unfold RegistryFactory.arrow. by rewrite Hc. Qed.

Lemma with_core_store (w : RegistryFactory.world) (c : loc)
    (r : RegistryCore.t) (σ : Store) :
  RegistryFactory.cores w !! c = Some r →
  with_core w c (r, σ) = with_store w σ.
Proof.
  intros Hc. unfold with_core, with_store. simpl. by rewrite insert_id.
Qed.

Lemma with_store_same (w : RegistryFactory.world) :
  with_store w (RegistryFactory.store w) = w.
Proof. by destruct w. Qed.

Lemma with_core_same (w : RegistryFactory.world) (c : loc)
    (r : RegistryCore.t) :
  RegistryFactory.cores w !! c = Some r →
  with_core w c (r, RegistryFactory.store w) = w.
Proof. intros Hc. by rewrite (with_core_store _ _ _ _ Hc), with_store_same. Qed.

Lemma handle_ok_inv (w : RegistryFactory.world) (h : option loc) :
  handle_ok w h →
  ∃ c r, h = Some c ∧ RegistryFactory.cores w !! c = Some r
         ∧ live (RegistryCore.items_ r) (RegistryFactory.store w)
         ∧ unshared (RegistryCore.items_ r).
Proof.
  unfold handle_ok. destruct h as [c|]; [|done].
  destruct (RegistryFactory.cores w !! c) as [r|] eqn:Hc; [|done].
  intros [Hlive Hun]. by exists c, r.
Qed.

Lemma handle_ok_store (w : RegistryFactory.world) (σ : Store)
    (h : option loc) :
  dom (objs σ) = dom (objs (RegistryFactory.store w)) →
  handle_ok w h → handle_ok (with_store w σ) h.
Proof.
  intros Hdom. unfold handle_ok. destruct h as [c|]; [|done]. simpl.
  destruct (RegistryFactory.cores w !! c) as [r|]; [|done].
  intros [Hlive Hun]. split; [|done]. by apply (live_dom _ _ _ Hdom).
Qed.

Lemma registry_absent (w : RegistryFactory.world) (registry_name : string) :
  RegistryFactory.registries_ (RegistryFactory.instance w) !! registry_name
  = None →
  RegistryFactory.registry registry_name w = Throw out_of_range w.
Proof.
  intros Hrn.
  unfold RegistryFactory.registry, RegistryFactory.registries, map_at, bind,
    gets.
  by rewrite Hrn.
Qed.

Lemma registry_present (w : RegistryFactory.world) (registry_name : string)
    (h : option loc) :
  RegistryFactory.registries_ (RegistryFactory.instance w) !! registry_name
  = Some h →
  RegistryFactory.registry registry_name w = Ret h w.
Proof.
  intros Hrn.
  unfold RegistryFactory.registry, RegistryFactory.registries, map_at, bind,
    gets.
  by rewrite Hrn.
Qed.

(** ** RegistryFactory::call *)

Lemma factory_call_no_registry (w : RegistryFactory.world)
    (registry_name item_name : string) (request : PluginRequest)
    (response : PluginResponse) :
  RegistryFactory.registries_ (RegistryFactory.instance w) !! registry_name
  = None →
  RegistryFactory.call registry_name item_name request response w
  = Ret (RegistryNotFound registry_name item_name, response) w.
Proof.
  intros Hrn.
  unfold RegistryFactory.call, RegistryFactory.registries, bind, gets.
  by rewrite (map_count_None _ _ Hrn).
Qed.

Lemma factory_call_registry (w : RegistryFactory.world)
    (registry_name item_name : string) (request : PluginRequest)
    (response : PluginResponse) (c : loc) (r : RegistryCore.t) :
  RegistryFactory.registries_ (RegistryFactory.instance w) !! registry_name
  = Some (Some c) →
  RegistryFactory.cores w !! c = Some r →
  RegistryFactory.call registry_name item_name request response w
  = match RegistryCore.call item_name request response
            (r, RegistryFactory.store w) with
    | Ret a σ => Ret a (with_core w c σ)
    | Throw e σ => Throw e (with_core w c σ)
    | Undef => Undef
    end.
Proof.
  intros Hrn Hc.
  unfold RegistryFactory.call, RegistryFactory.registries_index,
    RegistryFactory.registries, bind, gets.
  rewrite (map_count_Some _ _ _ Hrn). simpl. rewrite Hrn. unfold ret at 1.
  by apply arrow_live.
Qed.

Lemma factory_call_no_item (w : RegistryFactory.world)
    (registry_name item_name : string) (request : PluginRequest)
    (response : PluginResponse) (c : loc) (r : RegistryCore.t) :
  RegistryFactory.registries_ (RegistryFactory.instance w) !! registry_name
  = Some (Some c) →
  RegistryFactory.cores w !! c = Some r →
  RegistryCore.items_ r !! item_name = None →
  RegistryFactory.call registry_name item_name request response w
  = Ret (ItemNotFound item_name, response) w.
Proof.
  intros Hrn Hc Hk. rewrite (factory_call_registry _ _ _ _ _ _ _ Hrn Hc).
  rewrite (call_absent _ _ _ _ _ Hk). by rewrite (with_core_same _ _ _ Hc).
Qed.

(** C4: [call] through the Directory fails with RegistryNotFound when the
    registry name is absent and with ItemNotFound when the registry is there
    and the item name is absent; in both cases the world afterwards is the
    world before (no object changed, nothing logged: no implementation code
    ran).  When both are there the outcome is that of the item's own [call]
    on the request and response, its object is updated by it, and that one
    call is all that is logged. *)
Theorem factory_call_spec (w : RegistryFactory.world)
    (registry_name item_name : string) (request : PluginRequest)
    (response : PluginResponse) :
  (RegistryFactory.registries_ (RegistryFactory.instance w) !! registry_name
   = None →
   RegistryFactory.call registry_name item_name request response w
   = Ret (RegistryNotFound registry_name item_name, response) w)
  ∧ (∀ c r,
       RegistryFactory.registries_ (RegistryFactory.instance w)
         !! registry_name = Some (Some c) →
       RegistryFactory.cores w !! c = Some r →
       (RegistryCore.items_ r !! item_name = None →
        RegistryFactory.call registry_name item_name request response w
        = Ret (ItemNotFound item_name, response) w)
       ∧ (∀ l o,
            RegistryCore.items_ r !! item_name = Some l →
            objs (RegistryFactory.store w) !! l = Some o →
            RegistryFactory.call registry_name item_name request response w
            = Ret (Plugin.call (Plugin.cls o) (Plugin.st o)
                     request response).1
                  (with_store w
                     (with_objs (RegistryFactory.store w)
                        (<[l := after_call request response o]>
                           (objs (RegistryFactory.store w)))
                        [Ev_call l request])))).
Proof.
  split; [apply factory_call_no_registry|].
  intros c r Hrn Hc.
  split; [exact (factory_call_no_item _ _ _ _ _ _ _ Hrn Hc)|].
  intros l o Hk Ho. rewrite (factory_call_registry _ _ _ _ _ _ _ Hrn Hc).
  rewrite (call_present _ _ _ _ _ _ _ Hk Ho).
  by rewrite (with_core_store _ _ _ _ Hc).
Qed.

Lemma factory_call_spec_witness :
  RegistryFactory.call "logger" "hello" ∅ [] greeter_world
  = Ret (RegistryNotFound "logger" "hello", []) greeter_world
  ∧ RegistryFactory.call "greeter" "goodbye" ∅ [] greeter_world
    = Ret (ItemNotFound "goodbye", []) greeter_world
  ∧ RegistryFactory.call "greeter" "hello" {[ "name" := "alice" ]} []
      greeter_world
    = Ret (mkStatus 0 "OK", [ {[ "msg" := "alice" ]} ])
          (with_store greeter_world
             (with_objs greeter_store (objs greeter_store)
                [Ev_call 1%positive {[ "name" := "alice" ]}])).
Proof.
  split; [|split].
  - apply (proj1 (factory_call_spec greeter_world "logger" "hello" ∅ [])).
    reflexivity.
  - apply (proj2 (factory_call_spec greeter_world "greeter" "goodbye" ∅ [])
             1%positive greeter); reflexivity.
  - rewrite (proj2 (proj2 (factory_call_spec greeter_world "greeter" "hello"
                             {[ "name" := "alice" ]} [])
                      1%positive greeter eq_refl eq_refl)
               1%positive (Plugin.mkObj "hello" hello_class tt)
               eq_refl eq_refl).
    vm_compute. reflexivity.
Defined.

(** C10: when [call] through the Directory finds no registry, or a registry
    without the item, it returns a failure and the response it hands back is
    the response it was given; the world is unchanged as well. *)
Theorem factory_call_failure_keeps_response (w : RegistryFactory.world)
    (registry_name item_name : string) (request : PluginRequest)
    (response : PluginResponse) :
  not_found w registry_name item_name = true →
  ∃ s, RegistryFactory.call registry_name item_name request response w
       = Ret (s, response) w
       ∧ ok s = false.
Proof.
  unfold not_found. intros Hnf.
  destruct (RegistryFactory.registries_ (RegistryFactory.instance w)
              !! registry_name) as [[c|]|] eqn:Hrn; [| done |].
  - destruct (RegistryFactory.cores w !! c) as [r|] eqn:Hc; [|done].
    apply bool_decide_eq_true in Hnf.
    exists (ItemNotFound item_name). split; [|done].
    by apply (factory_call_no_item _ _ _ _ _ c r).
  - exists (RegistryNotFound registry_name item_name). split; [|done].
    by apply factory_call_no_registry.
Qed.

Lemma factory_call_failure_keeps_response_witness :
  ∃ s, RegistryFactory.call "greeter" "goodbye" ∅
         [ {[ "msg" := "kept" ]} ] greeter_world
       = Ret (s, [ {[ "msg" := "kept" ]} ]) greeter_world
       ∧ ok s = false.
Proof.
  apply (factory_call_failure_keeps_response greeter_world "greeter"
           "goodbye" ∅ [ {[ "msg" := "kept" ]} ]).
  reflexivity.
Defined.

(** ** RegistryFactory::add *)

(** No registry is named "logger" in [greeter_world], and [add] into it
    does not return a status: it throws. *)
Lemma factory_add_absent_throws :
  RegistryFactory.registries_ (RegistryFactory.instance greeter_world)
    !! "logger" = None
  ∧ RegistryFactory.add Plugin.base "logger" "stdout" greeter_world
    = Throw out_of_range greeter_world.
Proof. split; reflexivity. Qed.

Lemma add_returns (Item : Plugin.class) (item_name : string)
    (σ : RegistryCore.state) :
  ∃ s σ', RegistryCore.add Item item_name σ = Ret s σ'.
Proof.
  destruct σ as [r σ].
  destruct (RegistryCore.items_ r !! item_name) as [l|] eqn:Hk.
  - rewrite (add_duplicate _ _ _ _ _ Hk). eauto.
  - rewrite (add_fresh _ _ _ _ Hk). eauto.
Qed.

(** C2, as the header has it: [add] through the Directory raises
    [std::out_of_range] (the [at] in [registry]) when the registry name is
    absent, and the world is left as it was; when the name is bound to a
    container, the container's [add] runs on it and its status is what is
    returned. *)
Theorem factory_add_spec (Item : Plugin.class) (w : RegistryFactory.world)
    (registry_name item_name : string) :
  (RegistryFactory.registries_ (RegistryFactory.instance w) !! registry_name
   = None →
   RegistryFactory.add Item registry_name item_name w = Throw out_of_range w)
  ∧ (∀ c r,
       RegistryFactory.registries_ (RegistryFactory.instance w)
         !! registry_name = Some (Some c) →
       RegistryFactory.cores w !! c = Some r →
       ∃ s σ',
         RegistryCore.add Item item_name (r, RegistryFactory.store w)
         = Ret s σ'
         ∧ RegistryFactory.add Item registry_name item_name w
           = Ret s (with_core w c σ')).
Proof.
  split.
  - intros Hrn. unfold RegistryFactory.add, bind.
    by rewrite (registry_absent _ _ Hrn).
  - intros c r Hrn Hc.
    destruct (add_returns Item item_name (r, RegistryFactory.store w))
      as (s & σ' & Hadd).
    exists s, σ'. split; [done|].
    unfold RegistryFactory.add, bind.
    rewrite (registry_present _ _ _ Hrn), (arrow_live _ _ _ _ Hc).
    by rewrite Hadd.
Qed.

Lemma factory_add_spec_witness :
  RegistryFactory.add Plugin.base "logger" "stdout" greeter_world
  = Throw out_of_range greeter_world
  ∧ ∃ s σ',
      RegistryCore.add Plugin.base "hello" (greeter, greeter_store) = Ret s σ'
      ∧ RegistryFactory.add Plugin.base "greeter" "hello" greeter_world
        = Ret s (with_core greeter_world 1%positive σ').
Proof.
  split.
  - apply (proj1 (factory_add_spec Plugin.base greeter_world "logger"
                    "stdout")).
    reflexivity.
  - apply (proj2 (factory_add_spec Plugin.base greeter_world "greeter"
                    "hello") 1%positive greeter); reflexivity.
Defined.

(** ** Every method keeps a container well formed *)

Lemma live_mono (m : gmap string loc) (σ σ' : Store) :
  dom (objs σ) ⊆ dom (objs σ') → live m σ → live m σ'.
Proof.
  intros Hdom Hlive k l Hk. apply elem_of_dom, Hdom, elem_of_dom.
  exact (Hlive k l Hk).
Qed.

Lemma core_step_pure {A : Type} (m : M RegistryCore.state A) :
  (∀ σ, final (m σ) = Some σ) → core_step m.
Proof.
  intros Hsame r σ r' σ' Hok Hfin. rewrite Hsame in Hfin.
  by injection Hfin as <- <-.
Qed.

Lemma step_add (Item : Plugin.class) (item_name : string) :
  core_step (RegistryCore.add Item item_name).
Proof.
  intros r σ r' σ' [Hlive Hun].
  destruct (RegistryCore.items_ r !! item_name) as [l|] eqn:Hk.
  { rewrite (add_duplicate _ _ _ _ _ Hk). by intros [= <- <-]. }
  rewrite (add_fresh _ _ _ _ Hk). intros [= <- <-].
  set (l := fresh (dom (objs σ))).
  assert (l ∉ dom (objs σ)) as Hfresh by apply is_fresh.
  cbn [objs with_objs]. split; [split|].
  - intros k' l'. unfold with_items. cbn [RegistryCore.items_].
    rewrite lookup_insert. case_decide as Hkk.
    + intros [= <-]. cbn [objs with_objs]. rewrite lookup_insert_eq.
      by eexists.
    + intros Hk'. destruct (Hlive k' l' Hk') as [o Ho].
      cbn [objs with_objs]. rewrite lookup_insert. case_decide; by eexists.
  - apply unshared_inj. unfold with_items. cbn [RegistryCore.items_].
    intros k1 k2 l'. rewrite !lookup_insert.
    case_decide as H1; case_decide as H2; try congruence.
    + intros [= <-] Hk2. exfalso. apply Hfresh, elem_of_dom.
      exact (Hlive k2 l Hk2).
    + intros Hk1 [= <-]. exfalso. apply Hfresh, elem_of_dom.
      exact (Hlive k1 l Hk1).
    + apply (proj1 (unshared_inj _) Hun).
  - rewrite dom_insert_L. apply union_subseteq_r.
Qed.

Lemma step_get (item_name : string) : core_step (RegistryCore.get item_name).
Proof.
  apply core_step_pure. intros [r σ].
  destruct (RegistryCore.items_ r !! item_name) as [l|] eqn:Hk.
  - by rewrite (get_present _ _ _ _ Hk).
  - by rewrite (get_absent _ _ _ Hk).
Qed.

Lemma step_remove (item_name : string) :
  core_step (RegistryCore.remove item_name).
Proof.
  intros r σ r' σ' [Hlive Hun].
  destruct (RegistryCore.items_ r !! item_name) as [l|] eqn:Hk.
  - destruct (Hlive _ _ Hk) as [o Ho].
    rewrite (remove_present _ _ _ _ _ Hk Ho). intros [= <- <-].
    assert (dom (<[l := after_tearDown o]> (objs σ)) = dom (objs σ)) as Hdom
      by by apply dom_insert_lookup_L.
    cbn [objs with_objs]. rewrite Hdom. split; [split|done].
    + apply live_delete. by apply (live_dom _ σ).
    + by apply unshared_delete.
  - rewrite (remove_absent _ _ _ Hk). by intros [= <- <-].
Qed.

Lemma step_getRoutes : core_step RegistryCore.getRoutes.
Proof.
  intros r σ r' σ' [Hlive Hun].
  rewrite (getRoutes_spec _ _ Hlive Hun). intros [= <- <-].
  cbn [objs with_objs]. rewrite dom_alter_all. split; [split|done]; [|done].
  apply (live_dom _ σ); [apply dom_alter_all|done].
Qed.

Lemma step_call (item_name : string) (request : PluginRequest)
    (response : PluginResponse) :
  core_step (RegistryCore.call item_name request response).
Proof.
  intros r σ r' σ' [Hlive Hun].
  destruct (RegistryCore.items_ r !! item_name) as [l|] eqn:Hk.
  - destruct (Hlive _ _ Hk) as [o Ho].
    rewrite (call_present _ _ _ _ _ _ _ Hk Ho). intros [= <- <-].
    assert (dom (<[l := after_call request response o]> (objs σ))
            = dom (objs σ)) as Hdom by by apply dom_insert_lookup_L.
    cbn [objs with_objs]. rewrite Hdom. split; [split|done]; [|done].
    by apply (live_dom _ σ).
  - rewrite (call_absent _ _ _ _ _ Hk). by intros [= <- <-].
Qed.

Lemma step_setUp : core_step RegistryCore.setUp.
Proof.
  intros r σ r' σ' [Hlive Hun].
  destruct (RegistryCore.auto_setup_ r) eqn:Hauto.
  - rewrite (setUp_run _ _ Hauto Hlive Hun). intros [= <- <-].
    cbn [objs with_objs]. rewrite !dom_alter_all. split; [split|done].
    + intros k l [Hk _]%map_lookup_filter_Some. apply elem_of_dom.
      cbn [objs with_objs]. rewrite !dom_alter_all. apply elem_of_dom.
      exact (Hlive k l Hk).
    + apply unshared_inj. unfold with_items. cbn [RegistryCore.items_].
      intros k1 k2 l [H1 _]%map_lookup_filter_Some
        [H2 _]%map_lookup_filter_Some.
      exact (proj1 (unshared_inj _) Hun _ _ _ H1 H2).
  - rewrite (setUp_not_auto _ _ Hauto). by intros [= <- <-].
Qed.

Lemma step_exists (item_name : string) :
  core_step (RegistryCore.exists_ item_name).
Proof. apply core_step_pure. intros [r σ]. by rewrite exists_spec. Qed.

Lemma step_setName (name : string) : core_step (RegistryCore.setName name).
Proof. intros r σ r' σ' Hok. by intros [= <- <-]. Qed.

Lemma step_item_dom {A : Type} (m : M Store A) (σ σ' : Store) :
  item_method A m → final (m σ) = Some σ' → dom (objs σ') = dom (objs σ).
Proof.
  intros [l name|l|l|l|l request response];
    unfold Item.setName, Item.setUp, Item.tearDown, Item.routeInfo,
      Item.call, Item.deref, bind;
    (destruct (objs σ !! l) as [o|] eqn:Ho; [|done]);
    simpl; intros [= <-]; simpl; by apply dom_insert_lookup_L.
Qed.

Lemma names_loop {Σ : Type} (its : list (string * loc)) :
  ∀ (acc : list string) (σ : Σ),
    for_fold its acc (λ names item, ret (names ++ [item.1])%list) σ
    = Ret (acc ++ its.*1)%list σ.
Proof.
  induction its as [|[k l] its IH]; intros acc σ; simpl.
  - unfold ret. by rewrite app_nil_r.
  - unfold bind, ret at 1. rewrite IH. by rewrite <- app_assoc.
Qed.

Lemma core_names_spec (r : RegistryCore.t) (σ : Store) :
  RegistryCore.names (r, σ)
  = Ret (map_iter (RegistryCore.items_ r)).*1 (r, σ).
Proof.
  unfold RegistryCore.names, RegistryCore.items, bind, gets.
  by rewrite names_loop.
Qed.

Lemma core_method_step {A : Type} (m : M RegistryCore.state A) :
  core_method A m → core_step m.
Proof.
  intros [Item k|k|k| |k rq rs| | |k| | |name].
  - apply step_add.
  - apply step_get.
  - apply step_remove.
  - apply step_getRoutes.
  - apply step_call.
  - by apply core_step_pure.
  - apply step_setUp.
  - apply step_exists.
  - apply core_step_pure. intros [r σ]. by rewrite core_names_spec.
  - by apply core_step_pure.
  - apply step_setName.
Qed.

(** ** Every function of the Directory keeps the world well formed *)

Lemma stays_ret (i : RegistryFactory.t) {A : Type} (a : A) :
  stays_on i (ret a).
Proof. by intros w w' Hi Hwf [= <-]. Qed.

Lemma stays_throw (i : RegistryFactory.t) {A : Type} (e : exn) :
  stays_on i (@throw _ A e).
Proof. by intros w w' Hi Hwf [= <-]. Qed.

Lemma stays_undefined (i : RegistryFactory.t) {A : Type} :
  stays_on i (@undefined _ A).
Proof. by intros w w' Hi Hwf [=]. Qed.

Lemma stays_gets (i : RegistryFactory.t) {A : Type}
    (f : RegistryFactory.world → A) :
  stays_on i (gets f).
Proof. by intros w w' Hi Hwf [= <-]. Qed.

Lemma stays_bind (i : RegistryFactory.t) {A B : Type}
    (m : M RegistryFactory.world A) (k : A → M RegistryFactory.world B) :
  stays_on i m →
  (∀ a w w1, RegistryFactory.instance w = i → m w = Ret a w1 →
             stays_on i (k a)) →
  stays_on i (bind m k).
Proof.
  intros Hm Hk w w' Hi Hwf. unfold bind.
  destruct (m w) as [a w1|e w1|] eqn:Hrun; simpl; [| |done].
  - destruct (Hm w w1 Hi Hwf) as [Hwf1 Hi1]; [by rewrite Hrun|].
    exact (Hk a w w1 Hi Hrun w1 w' Hi1 Hwf1).
  - intros [= <-]. apply (Hm w w1 Hi Hwf). by rewrite Hrun.
Qed.

Lemma stays_for_each (i : RegistryFactory.t) {A : Type} (l : list A)
    (body : A → M RegistryFactory.world unit) :
  (∀ x, x ∈ l → stays_on i (body x)) → stays_on i (for_each l body).
Proof.
  induction l as [|x l IH]; intros Hbody; simpl; [apply stays_ret|].
  apply stays_bind; [apply Hbody; by left|]. intros _ _ _ _ _.
  apply IH. intros y Hy. apply Hbody. by right.
Qed.

Lemma stays_for_fold (i : RegistryFactory.t) {A B : Type} (l : list A)
    (body : B → A → M RegistryFactory.world B) :
  (∀ acc x, x ∈ l → stays_on i (body acc x)) →
  ∀ acc, stays_on i (for_fold l acc body).
Proof.
  induction l as [|x l IH]; intros Hbody acc; simpl; [apply stays_ret|].
  apply stays_bind; [apply Hbody; by left|]. intros acc' _ _ _ _.
  apply IH. intros acc'' y Hy. apply Hbody. by right.
Qed.

Lemma stays_map_at (i : RegistryFactory.t) {V : Type} (m : gmap string V)
    (k : string) :
  stays_on i (map_at m k).
Proof.
  unfold map_at. destruct (m !! k); [apply stays_ret|apply stays_throw].
Qed.

Lemma stays_arrow (i : RegistryFactory.t) {A : Type} (h : option loc)
    (registry_name : string) (method : M RegistryCore.state A) :
  RegistryFactory.registries_ i !! registry_name = Some h →
  core_step method →
  stays_on i (RegistryFactory.arrow h method).
Proof.
  intros Hrn Hstep w w' Hi Hwf. subst i.
  destruct (handle_ok_inv _ _ (Hwf _ _ Hrn)) as (c & r & -> & Hc & Hok).
  rewrite (arrow_live _ _ _ _ Hc).
  assert (∀ r' σ', final (method (r, RegistryFactory.store w))
                   = Some (r', σ') →
            wf_world (with_core w c (r', σ'))) as Hkeep.
  { intros r' σ' Hfin. destruct (Hstep _ _ _ _ Hok Hfin) as [[Hl' Hu'] Hdom].
    intros rn' h' Hrn'. simpl in Hrn'.
    destruct (handle_ok_inv _ _ (Hwf _ _ Hrn'))
      as (c' & r'' & -> & Hc' & Hl'' & Hu'').
    unfold handle_ok, with_core. cbn [RegistryFactory.cores fst snd
      RegistryFactory.store].
    rewrite lookup_insert. case_decide as Hcc; [done|].
    rewrite Hc'. split; [|done]. by apply (live_mono _ _ _ Hdom). }
  destruct (method (r, RegistryFactory.store w)) as [a [r' σ']|e [r' σ']|]
    eqn:Hrun; simpl; [| |done]; intros [= <-]; split; try done;
    by apply Hkeep.
Qed.

Lemma registry_inv (registry_name : string) (w w1 : RegistryFactory.world)
    (h : option loc) :
  RegistryFactory.registry registry_name w = Ret h w1 →
  RegistryFactory.registries_ (RegistryFactory.instance w) !! registry_name
  = Some h.
Proof.
  unfold RegistryFactory.registry, RegistryFactory.registries, map_at, bind,
    gets.
  destruct (_ !! registry_name) as [h'|]; [|done]. by intros [= -> _].
Qed.

Lemma stays_registry (i : RegistryFactory.t) (registry_name : string) :
  stays_on i (RegistryFactory.registry registry_name).
Proof.
  unfold RegistryFactory.registry, RegistryFactory.registries.
  apply stays_bind; [apply stays_gets|]. intros regs _ _ _ _.
  apply stays_map_at.
Qed.

Lemma stays_registry_arrow (i : RegistryFactory.t) {A : Type}
    (registry_name : string) (method : M RegistryCore.state A) :
  core_step method →
  stays_on i (let* registry := RegistryFactory.registry registry_name in
              RegistryFactory.arrow registry method).
Proof.
  intros Hstep. apply stays_bind; [apply stays_registry|].
  intros h w w1 Hi Hrun. apply registry_inv in Hrun. subst i.
  by apply (stays_arrow _ _ registry_name).
Qed.

Lemma gets_inv {Σ A : Type} (f : Σ → A) (σ σ1 : Σ) (a : A) :
  gets f σ = Ret a σ1 → a = f σ.
Proof. by intros [= <- _]. Qed.

Lemma registries_index_inv (registry_name : string)
    (w w1 : RegistryFactory.world) (h : option loc) :
  RegistryFactory.registries_index registry_name w = Ret h w1 →
  RegistryFactory.registries_ (RegistryFactory.instance w) !! registry_name
  = Some h.
Proof.
  unfold RegistryFactory.registries_index, RegistryFactory.registries, bind,
    gets.
  destruct (_ !! registry_name) as [h'|]; [|done]. by intros [= -> _].
Qed.

Lemma stays_registries_index (i : RegistryFactory.t) (registry_name : string) :
  stays_on i (RegistryFactory.registries_index registry_name).
Proof.
  unfold RegistryFactory.registries_index, RegistryFactory.registries.
  apply stays_bind; [apply stays_gets|]. intros regs _ _ _ _.
  destruct (regs !! registry_name); [apply stays_ret|apply stays_undefined].
Qed.

Lemma stays_call (i : RegistryFactory.t) (registry_name item_name : string)
    (request : PluginRequest) (response : PluginResponse) :
  stays_on i (RegistryFactory.call registry_name item_name request response).
Proof.
  unfold RegistryFactory.call, RegistryFactory.registries.
  apply stays_bind; [apply stays_gets|]. intros regs _ _ _ _.
  destruct (decide _); [|apply stays_ret].
  apply stays_bind; [apply stays_registries_index|].
  intros h w w1 Hi Hrun. apply registries_index_inv in Hrun. subst i.
  apply (stays_arrow _ _ registry_name); [done|apply step_call].
Qed.

Lemma stays_setUp (i : RegistryFactory.t) : stays_on i RegistryFactory.setUp.
Proof.
  unfold RegistryFactory.setUp, RegistryFactory.all,
    RegistryFactory.registries.
  apply stays_bind; [apply stays_gets|].
  intros regs w w1 Hi ->%gets_inv. subst i.
  apply stays_for_each. intros [rn h] Hin%elem_of_map_iter.
  apply (stays_arrow _ _ rn); [done|apply step_setUp].
Qed.

Lemma stays_getBroadcast (i : RegistryFactory.t) :
  stays_on i RegistryFactory.getBroadcast.
Proof.
  unfold RegistryFactory.getBroadcast, RegistryFactory.registries.
  apply stays_bind; [apply stays_gets|].
  intros regs w w1 Hi ->%gets_inv. subst i.
  apply stays_for_fold. intros acc [rn h] Hin%elem_of_map_iter.
  apply stays_bind; [|intros; apply stays_ret].
  apply (stays_arrow _ _ rn); [done|apply step_getRoutes].
Qed.

Lemma stays_exists (i : RegistryFactory.t) (registry_name item_name : string) :
  stays_on i (RegistryFactory.exists_ registry_name item_name).
Proof.
  unfold RegistryFactory.exists_, RegistryFactory.registries.
  apply stays_bind; [apply stays_gets|]. intros regs _ _ _ _.
  destruct (decide _); [apply stays_ret|].
  apply stays_registry_arrow, step_exists.
Qed.

Lemma stays_names (i : RegistryFactory.t) (registry_name : string) :
  stays_on i (RegistryFactory.names registry_name).
Proof.
  unfold RegistryFactory.names, RegistryFactory.registries.
  apply stays_bind; [apply stays_gets|]. intros regs _ _ _ _.
  apply stays_bind; [apply stays_map_at|]. intros handle _ _ _ _.
  destruct (decide _); [apply stays_ret|].
  apply stays_registry_arrow, core_method_step, m_names.
Qed.

Lemma stays_count_of (i : RegistryFactory.t) (registry_name : string) :
  stays_on i (RegistryFactory.count_of registry_name).
Proof.
  unfold RegistryFactory.count_of, RegistryFactory.registries.
  apply stays_bind; [apply stays_gets|]. intros regs _ _ _ _.
  destruct (decide _); [apply stays_ret|].
  apply stays_registry_arrow, core_method_step, m_count.
Qed.

Lemma create_wf (registry_name : string) (auto_setup : bool)
    (w w' : RegistryFactory.world) :
  wf_world w →
  final (RegistryFactory.create registry_name auto_setup w) = Some w' →
  wf_world w'.
Proof.
  intros Hwf.
  unfold RegistryFactory.create, RegistryFactory.registries, bind at 1, gets.
  destruct (decide _) as [_|_]; [by intros [= <-]|].
  unfold RegistryFactory.new_core, RegistryFactory.arrow,
    RegistryFactory.set_registries, RegistryCore.setName, bind, gets, modify,
    ret.
  simpl. rewrite lookup_insert_eq. simpl. intros [= <-].
  set (c := fresh (dom (RegistryFactory.cores w))).
  assert (RegistryFactory.cores w !! c = None) as Hfresh
    by apply not_elem_of_dom, is_fresh.
  intros rn h. simpl. rewrite lookup_insert. case_decide as Hrn.
  - intros [= <-]. unfold handle_ok. simpl. rewrite lookup_insert_eq. simpl.
    split; [apply map_Forall_empty|].
    unfold unshared. rewrite map_to_list_empty. constructor.
  - intros Hb.
    destruct (handle_ok_inv _ _ (Hwf _ _ Hb)) as (c' & r & -> & Hc & Hl & Hu).
    unfold handle_ok. simpl. rewrite insert_insert_eq.
    rewrite lookup_insert_ne; [by rewrite Hc|]. intros <-. congruence.
Qed.

Lemma item_method_wf {A : Type} (method : M Store A)
    (w w' : RegistryFactory.world) :
  item_method A method → wf_world w →
  final (in_store method w) = Some w' → wf_world w'.
Proof.
  intros Hm Hwf. unfold in_store, zoom.
  assert (∀ σ, final (method (RegistryFactory.store w)) = Some σ →
               wf_world (with_store w σ)) as Hkeep.
  { intros σ Hfin rn h Hb. apply handle_ok_store; [|exact (Hwf rn h Hb)].
    by apply (step_item_dom method). }
  destruct (method (RegistryFactory.store w)) as [a σ|e σ|];
    simpl; [| |done]; intros [= <-]; by apply Hkeep.
Qed.

(** Every world reached through the interface is well formed: no name is
    bound to the null handle, and every container has live and unshared
    item handles. *)
Lemma reachable_wf (w : RegistryFactory.world) : reachable w → wf_world w.
Proof.
  induction 1 as [|rn a w w' _ IH Hfin|A rn method w w' _ IH Hm Hfin
                  |A method w w' _ IH Hm Hfin|w w' _ IH Hfin
                  |rn k rq rs w w' _ IH Hfin|w w' _ IH Hfin
                  |rn k w w' _ IH Hfin|rn w w' _ IH Hfin|rn w w' _ IH Hfin].
  - apply map_Forall_empty.
  - exact (create_wf _ _ _ _ IH Hfin).
  - exact (proj1 (stays_registry_arrow _ rn method (core_method_step _ Hm)
                    w w' eq_refl IH Hfin)).
  - exact (item_method_wf _ _ _ Hm IH Hfin).
  - exact (proj1 (stays_getBroadcast _ w w' eq_refl IH Hfin)).
  - exact (proj1 (stays_call _ rn k rq rs w w' eq_refl IH Hfin)).
  - exact (proj1 (stays_setUp _ w w' eq_refl IH Hfin)).
  - exact (proj1 (stays_exists _ rn k w w' eq_refl IH Hfin)).
  - exact (proj1 (stays_names _ rn w w' eq_refl IH Hfin)).
  - exact (proj1 (stays_count_of _ rn w w' eq_refl IH Hfin)).
Qed.

Lemma wf_world_no_null (w : RegistryFactory.world) (registry_name : string) :
  wf_world w →
  RegistryFactory.registries_ (RegistryFactory.instance w) !! registry_name
  ≠ Some None.
Proof. intros Hwf Hrn. exact (Hwf _ _ Hrn). Qed.

(** In a reachable world the container behind a bound name satisfies what
    the statements about [setUp] and [getRoutes] assume. *)
Lemma reachable_core_ok (w : RegistryFactory.world) (registry_name : string)
    (c : loc) (r : RegistryCore.t) :
  reachable w →
  RegistryFactory.registries_ (RegistryFactory.instance w) !! registry_name
  = Some (Some c) →
  RegistryFactory.cores w !! c = Some r →
  core_ok r (RegistryFactory.store w).
Proof.
  intros Hreach Hrn Hc. pose proof (reachable_wf _ Hreach _ _ Hrn) as Hok.
  unfold handle_ok in Hok. by rewrite Hc in Hok.
Qed.

(** ** RegistryFactory::names *)

(** C9: [names] through the Directory raises [std::out_of_range] when the
    registry name is absent: the [at] of its guard throws before the
    comparison with null is made.  The guard gives the empty sequence only
    for a name bound to the null handle, and no world reachable through the
    interface binds a name to it.  For a name bound to a container the item
    names of that container are returned, in key order. *)
Theorem factory_names_spec (w : RegistryFactory.world)
    (registry_name : string) :
  (RegistryFactory.registries_ (RegistryFactory.instance w) !! registry_name
   = None →
   RegistryFactory.names registry_name w = Throw out_of_range w)
  ∧ (RegistryFactory.registries_ (RegistryFactory.instance w)
       !! registry_name = Some None →
     RegistryFactory.names registry_name w = Ret [] w)
  ∧ (reachable w →
     RegistryFactory.registries_ (RegistryFactory.instance w)
       !! registry_name ≠ Some None)
  ∧ (∀ c r,
       RegistryFactory.registries_ (RegistryFactory.instance w)
         !! registry_name = Some (Some c) →
       RegistryFactory.cores w !! c = Some r →
       RegistryFactory.names registry_name w
       = Ret (map_iter (RegistryCore.items_ r)).*1 w).
Proof.
  split; [|split; [|split]].
  - intros Hrn.
    unfold RegistryFactory.names, RegistryFactory.registries, map_at, bind,
      gets.
    by rewrite Hrn.
  - intros Hrn.
    unfold RegistryFactory.names, RegistryFactory.registries, map_at, bind,
      gets.
    by rewrite Hrn.
  - intros Hreach. apply wf_world_no_null, reachable_wf, Hreach.
  - intros c r Hrn Hc.
    unfold RegistryFactory.names, RegistryFactory.registries, map_at, bind,
      gets.
    rewrite Hrn. unfold ret at 1. rewrite decide_False by done.
    rewrite (registry_present _ _ _ Hrn), (arrow_live _ _ _ _ Hc).
    by rewrite core_names_spec, (with_core_same _ _ _ Hc).
Qed.

Lemma greeter_world_reachable : reachable greeter_world.
Proof.
  eapply (reach_registry _ "greeter");
    [|exact (m_add broken_class "broken")|].
  - eapply (reach_registry _ "greeter");
      [|exact (m_add hello_class "hello")|].
    + eapply (reach_create "greeter" true); [exact reach_start|].
      reflexivity.
    + reflexivity.
  - vm_compute. reflexivity.
Defined.

Lemma factory_names_spec_witness :
  RegistryFactory.names "logger" greeter_world
  = Throw out_of_range greeter_world
  ∧ RegistryFactory.names "ghost" ghost_world = Ret [] ghost_world
  ∧ RegistryFactory.registries_ (RegistryFactory.instance greeter_world)
      !! "greeter" ≠ Some None
  ∧ RegistryFactory.names "greeter" greeter_world
    = Ret ["broken"; "hello"] greeter_world.
Proof.
  split; [|split; [|split]].
  - apply (proj1 (factory_names_spec greeter_world "logger")). reflexivity.
  - apply (proj1 (proj2 (factory_names_spec ghost_world "ghost"))).
    reflexivity.
  - apply (proj1 (proj2 (proj2 (factory_names_spec greeter_world "greeter")))).
    exact greeter_world_reachable.
  - apply (proj2 (proj2 (proj2 (factory_names_spec greeter_world "greeter")))
             1%positive greeter); reflexivity.
Defined.

(** ** Broadcast *)

Lemma broadcast_loop (regs : list (string * option loc)) :
  ∀ (w : RegistryFactory.world) (acc : RegistryBroadcast),
    NoDup regs.*1 →
    Forall (λ registry, handle_ok w registry.2) regs →
    ∃ broadcast σ',
      for_fold regs acc (λ broadcast registry,
        let* routes :=
          RegistryFactory.arrow registry.2 RegistryCore.getRoutes in
        ret (<[registry.1 := routes]> broadcast)) w
      = Ret broadcast (with_store w σ')
      ∧ dom (objs σ') = dom (objs (RegistryFactory.store w))
      ∧ (∀ rn, rn ∉ regs.*1 → broadcast !! rn = acc !! rn)
      ∧ (∀ rn c r, (rn, Some c) ∈ regs →
           RegistryFactory.cores w !! c = Some r →
           ∃ routes, broadcast !! rn = Some routes
                     ∧ dom routes = dom (RegistryCore.items_ r)).
Proof.
  induction regs as [|[rn0 h0] regs IH]; intros w acc Hnd Hok.
  - exists acc, (RegistryFactory.store w). simpl. unfold ret.
    rewrite with_store_same. split; [done|]. split; [done|].
    split; [done|]. intros rn c r Hin. by apply elem_of_nil in Hin.
  - apply NoDup_cons in Hnd as [Hrn0 Hnd].
    apply Forall_cons in Hok as [Hok0 Hok]. simpl in Hok0, Hrn0.
    apply handle_ok_inv in Hok0 as (c0 & r0 & -> & Hc0 & Hlive & Hun).
    cbn [for_fold]. unfold bind at 1. unfold bind at 1. cbn [fst snd].
    rewrite (arrow_live _ _ _ _ Hc0), (getRoutes_spec _ _ Hlive Hun).
    rewrite (with_core_store _ _ _ _ Hc0). unfold ret at 1.
    set (σ1 := with_objs _ _ _).
    assert (dom (objs σ1) = dom (objs (RegistryFactory.store w))) as Hdom1.
    { unfold σ1. cbn [objs with_objs]. apply dom_alter_all. }
    destruct (IH (with_store w σ1)
                (<[rn0 := route_of (RegistryFactory.store w)
                            <$> RegistryCore.items_ r0]> acc) Hnd)
      as (broadcast & σ' & Hrun & Hdom & Hout & Hin).
    { eapply Forall_impl; [exact Hok|]. intros registry.
      by apply handle_ok_store. }
    exists broadcast, σ'. split; [exact Hrun|].
    split; [by rewrite Hdom|]. split.
    + intros rn [Hne Hrn]%not_elem_of_cons.
      rewrite (Hout _ Hrn). by apply lookup_insert_ne.
    + intros rn c r [[= -> ->]|Hmem]%elem_of_cons Hc.
      * rewrite (Hout _ Hrn0), lookup_insert_eq. eexists. split; [done|].
        rewrite dom_fmap_L. congruence.
      * by apply (Hin rn c r).
Qed.

Lemma getBroadcast_spec (w : RegistryFactory.world) :
  wf_world w →
  ∃ broadcast σ',
    RegistryFactory.getBroadcast w = Ret broadcast (with_store w σ')
    ∧ dom broadcast
      = dom (RegistryFactory.registries_ (RegistryFactory.instance w))
    ∧ ∀ rn c r,
        RegistryFactory.registries_ (RegistryFactory.instance w) !! rn
        = Some (Some c) →
        RegistryFactory.cores w !! c = Some r →
        ∃ routes, broadcast !! rn = Some routes
                  ∧ dom routes = dom (RegistryCore.items_ r).
Proof.
  intros Hwf.
  unfold RegistryFactory.getBroadcast, RegistryFactory.registries,
    bind at 1, gets.
  set (regs := RegistryFactory.registries_ (RegistryFactory.instance w)).
  destruct (broadcast_loop (map_iter regs) w ∅ (NoDup_map_iter_fst _))
    as (broadcast & σ' & Hrun & _ & Hout & Hin).
  { apply Forall_forall. intros [rn h] Hmem%elem_of_map_iter.
    exact (Hwf rn h Hmem). }
  exists broadcast, σ'. split; [exact Hrun|].
  assert (∀ rn c r, regs !! rn = Some (Some c) →
            RegistryFactory.cores w !! c = Some r →
            ∃ routes, broadcast !! rn = Some routes
                      ∧ dom routes = dom (RegistryCore.items_ r)) as Hentry.
  { intros rn c r Hrn. apply Hin. by apply elem_of_map_iter. }
  split; [|exact Hentry].
  apply set_eq. intros rn. rewrite !elem_of_dom. split.
  - intros Hb. destruct (regs !! rn) as [h|] eqn:Hrn; [by eexists|].
    rewrite Hout, lookup_empty in Hb; [by destruct Hb|].
    intros ([rn' h] & -> & Hmem%elem_of_map_iter)%list_elem_of_fmap.
    simpl in Hrn. congruence.
  - intros [h Hrn].
    destruct (handle_ok_inv _ _ (Hwf rn h Hrn)) as (c & r & -> & Hc & _).
    destruct (Hentry rn c r Hrn Hc) as (routes & -> & _). by eexists.
Qed.

(** ** Every method keeps the containers apart *)

Lemma core_grows_same {A : Type} (m : M RegistryCore.state A) :
  (∀ r σ r' σ', core_ok r σ → final (m (r, σ)) = Some (r', σ') →
                RegistryCore.items_ r' ⊆ RegistryCore.items_ r) →
  core_grows m.
Proof.
  intros Hsub r σ r' σ' Hok Hfin k l Hk. left.
  exact (lookup_weaken _ _ _ _ Hk (Hsub _ _ _ _ Hok Hfin)).
Qed.

Lemma grows_add (Item : Plugin.class) (item_name : string) :
  core_grows (RegistryCore.add Item item_name).
Proof.
  intros r σ r' σ' _.
  destruct (RegistryCore.items_ r !! item_name) as [l0|] eqn:Hk0.
  { rewrite (add_duplicate _ _ _ _ _ Hk0). intros [= <- <-]. by left. }
  rewrite (add_fresh _ _ _ _ Hk0). intros [= <- <-] k l.
  cbn [with_items RegistryCore.items_]. rewrite lookup_insert.
  case_decide; [|by left]. intros [= <-]. right.
  apply not_elem_of_dom, is_fresh.
Qed.

Lemma grows_remove (item_name : string) :
  core_grows (RegistryCore.remove item_name).
Proof.
  apply core_grows_same. intros r σ r' σ' [Hlive _].
  destruct (RegistryCore.items_ r !! item_name) as [l|] eqn:Hk.
  - destruct (Hlive _ _ Hk) as [o Ho].
    rewrite (remove_present _ _ _ _ _ Hk Ho). intros [= <- <-].
    apply delete_subseteq.
  - rewrite (remove_absent _ _ _ Hk). by intros [= <- <-].
Qed.

Lemma grows_getRoutes : core_grows RegistryCore.getRoutes.
Proof.
  apply core_grows_same. intros r σ r' σ' [Hlive Hun].
  rewrite (getRoutes_spec _ _ Hlive Hun). by intros [= <- <-].
Qed.

Lemma grows_call (item_name : string) (request : PluginRequest)
    (response : PluginResponse) :
  core_grows (RegistryCore.call item_name request response).
Proof.
  apply core_grows_same. intros r σ r' σ' [Hlive _].
  destruct (RegistryCore.items_ r !! item_name) as [l|] eqn:Hk.
  - destruct (Hlive _ _ Hk) as [o Ho].
    rewrite (call_present _ _ _ _ _ _ _ Hk Ho). by intros [= <- <-].
  - rewrite (call_absent _ _ _ _ _ Hk). by intros [= <- <-].
Qed.

Lemma grows_setUp : core_grows RegistryCore.setUp.
Proof.
  apply core_grows_same. intros r σ r' σ' [Hlive Hun].
  destruct (RegistryCore.auto_setup_ r) eqn:Hauto.
  - rewrite (setUp_run _ _ Hauto Hlive Hun). intros [= <- <-].
    apply map_filter_subseteq.
  - rewrite (setUp_not_auto _ _ Hauto). by intros [= <- <-].
Qed.

Lemma grows_pure {A : Type} (m : M RegistryCore.state A) :
  (∀ σ, final (m σ) = Some σ) → core_grows m.
Proof.
  intros Hsame. apply core_grows_same. intros r σ r' σ' _.
  rewrite Hsame. by intros [= <- <-].
Qed.

Lemma core_method_grows {A : Type} (m : M RegistryCore.state A) :
  core_method A m → core_grows m.
Proof.
  intros [Item k|k|k| |k rq rs| | |k| | |name].
  - apply grows_add.
  - apply grows_pure. intros [r σ].
    destruct (RegistryCore.items_ r !! k) as [l|] eqn:Hk.
    + by rewrite (get_present _ _ _ _ Hk).
    + by rewrite (get_absent _ _ _ Hk).
  - apply grows_remove.
  - apply grows_getRoutes.
  - apply grows_call.
  - by apply grows_pure.
  - apply grows_setUp.
  - apply grows_pure. intros [r σ]. by rewrite exists_spec.
  - apply grows_pure. intros [r σ]. by rewrite core_names_spec.
  - by apply grows_pure.
  - apply core_grows_same. intros r σ r' σ' _. by intros [= <- <-].
Qed.

Lemma separate_store (w : RegistryFactory.world) (σ : Store) :
  separate w → separate (with_store w σ).
Proof. done. Qed.

Lemma sound_arrow (i : RegistryFactory.t) {A : Type} (h : option loc)
    (registry_name : string) (method : M RegistryCore.state A) :
  RegistryFactory.registries_ i !! registry_name = Some h →
  core_method A method →
  inv_on sound i (RegistryFactory.arrow h method).
Proof.
  intros Hrn Hm w w' Hi [Hwf [Hbinj Hsep]] Hfin.
  destruct (stays_arrow i h registry_name method Hrn (core_method_step _ Hm)
              w w' Hi Hwf Hfin) as [Hwf' Hi'].
  split; [|done]. split; [done|]. subst i.
  destruct (handle_ok_inv _ _ (Hwf _ _ Hrn)) as (c & r & -> & Hc & Hok).
  rewrite (arrow_live _ _ _ _ Hc) in Hfin.
  assert (∃ r' σ', final (method (r, RegistryFactory.store w))
                   = Some (r', σ')
                   ∧ w' = with_core w c (r', σ')) as (r' & σ' & Hrun & ->).
  { destruct (method (r, RegistryFactory.store w)) as [a [r' σ']|e [r' σ']|];
      [| |done]; injection Hfin as <-; by exists r', σ'. }
  pose proof (core_method_grows _ Hm r _ r' σ' Hok Hrun) as Hgrow.
  split; [exact Hbinj|].
  assert (∀ rn c0 r0 k l,
            bound (with_core w c (r', σ')) rn c0 r0 →
            RegistryCore.items_ r0 !! k = Some l →
            (c0 = c ∧ objs (RegistryFactory.store w) !! l = None)
            ∨ ∃ r1 k1, bound w rn c0 r1
                       ∧ RegistryCore.items_ r1 !! k1 = Some l) as Hback.
  { intros rn c0 r0 k l [Hb Hc0] Hk. unfold with_core in Hc0.
    cbn [RegistryFactory.cores fst] in Hc0. rewrite lookup_insert in Hc0.
    case_decide as Hcc.
    - injection Hc0 as <-. subst c0.
      destruct (Hgrow _ _ Hk) as [Hold|Hnew]; [right|by left].
      by exists r, k.
    - right. by exists r0, k. }
  intros rn1 rn2 c1 c2 r1 r2 k1 k2 l Hb1 Hb2 Hk1 Hk2.
  destruct (Hback _ _ _ _ _ Hb1 Hk1) as [[-> Hn1]|(r1' & k1' & Hb1' & Hk1')],
    (Hback _ _ _ _ _ Hb2 Hk2) as [[-> Hn2]|(r2' & k2' & Hb2' & Hk2')].
  - exact (Hbinj _ _ _ (proj1 Hb1) (proj1 Hb2)).
  - exfalso. destruct Hb2' as [Hrn2 Hc2].
    pose proof (Hwf _ _ Hrn2) as Hok2. unfold handle_ok in Hok2.
    rewrite Hc2 in Hok2. destruct Hok2 as [Hlive2 _].
    destruct (Hlive2 _ _ Hk2') as [o Ho]. congruence.
  - exfalso. destruct Hb1' as [Hrn1 Hc1].
    pose proof (Hwf _ _ Hrn1) as Hok1. unfold handle_ok in Hok1.
    rewrite Hc1 in Hok1. destruct Hok1 as [Hlive1 _].
    destruct (Hlive1 _ _ Hk1') as [o Ho]. congruence.
  - exact (Hsep _ _ _ _ _ _ _ _ _ Hb1' Hb2' Hk1' Hk2').
Qed.

(** ** Invariants of the Directory's functions *)

Section invariant.
Context (Inv : RegistryFactory.world → Prop).

Lemma inv_ret (i : RegistryFactory.t) {A : Type} (a : A) :
  inv_on Inv i (ret a).
Proof. by intros w w' Hi HI [= <-]. Qed.

Lemma inv_throw (i : RegistryFactory.t) {A : Type} (e : exn) :
  inv_on Inv i (@throw _ A e).
Proof. by intros w w' Hi HI [= <-]. Qed.

Lemma inv_undefined (i : RegistryFactory.t) {A : Type} :
  inv_on Inv i (@undefined _ A).
Proof. by intros w w' Hi HI [=]. Qed.

Lemma inv_gets (i : RegistryFactory.t) {A : Type}
    (f : RegistryFactory.world → A) :
  inv_on Inv i (gets f).
Proof. by intros w w' Hi HI [= <-]. Qed.

Lemma inv_bind (i : RegistryFactory.t) {A B : Type}
    (m : M RegistryFactory.world A) (k : A → M RegistryFactory.world B) :
  inv_on Inv i m →
  (∀ a w w1, RegistryFactory.instance w = i → m w = Ret a w1 →
             inv_on Inv i (k a)) →
  inv_on Inv i (bind m k).
Proof.
  intros Hm Hk w w' Hi HI. unfold bind.
  destruct (m w) as [a w1|e w1|] eqn:Hrun; simpl; [| |done].
  - destruct (Hm w w1 Hi HI) as [HI1 Hi1]; [by rewrite Hrun|].
    exact (Hk a w w1 Hi Hrun w1 w' Hi1 HI1).
  - intros [= <-]. apply (Hm w w1 Hi HI). by rewrite Hrun.
Qed.

Lemma inv_for_each (i : RegistryFactory.t) {A : Type} (l : list A)
    (body : A → M RegistryFactory.world unit) :
  (∀ x, x ∈ l → inv_on Inv i (body x)) → inv_on Inv i (for_each l body).
Proof.
  induction l as [|x l IH]; intros Hbody; simpl; [apply inv_ret|].
  apply inv_bind; [apply Hbody; by left|]. intros _ _ _ _ _.
  apply IH. intros y Hy. apply Hbody. by right.
Qed.

Lemma inv_for_fold (i : RegistryFactory.t) {A B : Type} (l : list A)
    (body : B → A → M RegistryFactory.world B) :
  (∀ acc x, x ∈ l → inv_on Inv i (body acc x)) →
  ∀ acc, inv_on Inv i (for_fold l acc body).
Proof.
  induction l as [|x l IH]; intros Hbody acc; simpl; [apply inv_ret|].
  apply inv_bind; [apply Hbody; by left|]. intros acc' _ _ _ _.
  apply IH. intros acc'' y Hy. apply Hbody. by right.
Qed.

Lemma inv_map_at (i : RegistryFactory.t) {V : Type} (m : gmap string V)
    (k : string) :
  inv_on Inv i (map_at m k).
Proof. unfold map_at. destruct (m !! k); [apply inv_ret|apply inv_throw]. Qed.

Lemma inv_registry (i : RegistryFactory.t) (registry_name : string) :
  inv_on Inv i (RegistryFactory.registry registry_name).
Proof.
  unfold RegistryFactory.registry, RegistryFactory.registries.
  apply inv_bind; [apply inv_gets|]. intros regs _ _ _ _. apply inv_map_at.
Qed.

Lemma inv_registries_index (i : RegistryFactory.t) (registry_name : string) :
  inv_on Inv i (RegistryFactory.registries_index registry_name).
Proof.
  unfold RegistryFactory.registries_index, RegistryFactory.registries.
  apply inv_bind; [apply inv_gets|]. intros regs _ _ _ _.
  destruct (regs !! registry_name); [apply inv_ret|apply inv_undefined].
Qed.

(** What is left to show of an invariant is that a method run through a
    bound handle keeps it. *)
Hypothesis inv_arrow :
  ∀ (i : RegistryFactory.t) (A : Type) (h : option loc)
    (registry_name : string) (method : M RegistryCore.state A),
    RegistryFactory.registries_ i !! registry_name = Some h →
    core_method A method →
    inv_on Inv i (RegistryFactory.arrow h method).

Lemma inv_registry_arrow (i : RegistryFactory.t) {A : Type}
    (registry_name : string) (method : M RegistryCore.state A) :
  core_method A method →
  inv_on Inv i (let* registry := RegistryFactory.registry registry_name in
                RegistryFactory.arrow registry method).
Proof.
  intros Hm. apply inv_bind; [apply inv_registry|].
  intros h w w1 Hi Hrun. apply registry_inv in Hrun. subst i.
  by apply (inv_arrow _ _ _ registry_name).
Qed.

Lemma inv_call (i : RegistryFactory.t) (registry_name item_name : string)
    (request : PluginRequest) (response : PluginResponse) :
  inv_on Inv i
    (RegistryFactory.call registry_name item_name request response).
Proof.
  unfold RegistryFactory.call, RegistryFactory.registries.
  apply inv_bind; [apply inv_gets|]. intros regs _ _ _ _.
  destruct (decide _); [|apply inv_ret].
  apply inv_bind; [apply inv_registries_index|].
  intros h w w1 Hi Hrun. apply registries_index_inv in Hrun. subst i.
  apply (inv_arrow _ _ _ registry_name); [done|apply m_call].
Qed.

Lemma inv_setUp (i : RegistryFactory.t) : inv_on Inv i RegistryFactory.setUp.
Proof.
  unfold RegistryFactory.setUp, RegistryFactory.all,
    RegistryFactory.registries.
  apply inv_bind; [apply inv_gets|].
  intros regs w w1 Hi ->%gets_inv. subst i.
  apply inv_for_each. intros [rn h] Hin%elem_of_map_iter.
  apply (inv_arrow _ _ _ rn); [done|apply m_setUp].
Qed.

Lemma inv_getBroadcast (i : RegistryFactory.t) :
  inv_on Inv i RegistryFactory.getBroadcast.
Proof.
  unfold RegistryFactory.getBroadcast, RegistryFactory.registries.
  apply inv_bind; [apply inv_gets|].
  intros regs w w1 Hi ->%gets_inv. subst i.
  apply inv_for_fold. intros acc [rn h] Hin%elem_of_map_iter.
  apply inv_bind; [|intros; apply inv_ret].
  apply (inv_arrow _ _ _ rn); [done|apply m_getRoutes].
Qed.

Lemma inv_exists (i : RegistryFactory.t) (registry_name item_name : string) :
  inv_on Inv i (RegistryFactory.exists_ registry_name item_name).
Proof.
  unfold RegistryFactory.exists_, RegistryFactory.registries.
  apply inv_bind; [apply inv_gets|]. intros regs _ _ _ _.
  destruct (decide _); [apply inv_ret|].
  apply inv_registry_arrow, m_exists.
Qed.

Lemma inv_names (i : RegistryFactory.t) (registry_name : string) :
  inv_on Inv i (RegistryFactory.names registry_name).
Proof.
  unfold RegistryFactory.names, RegistryFactory.registries.
  apply inv_bind; [apply inv_gets|]. intros regs _ _ _ _.
  apply inv_bind; [apply inv_map_at|]. intros handle _ _ _ _.
  destruct (decide _); [apply inv_ret|].
  apply inv_registry_arrow, m_names.
Qed.

Lemma inv_count_of (i : RegistryFactory.t) (registry_name : string) :
  inv_on Inv i (RegistryFactory.count_of registry_name).
Proof.
  unfold RegistryFactory.count_of, RegistryFactory.registries.
  apply inv_bind; [apply inv_gets|]. intros regs _ _ _ _.
  destruct (decide _); [apply inv_ret|].
  apply inv_registry_arrow, m_count.
Qed.

(** An invariant of [start] that [create] and the methods of a plugin keep
    as well holds in every reachable world. *)
Lemma reachable_inv :
  Inv RegistryFactory.start →
  (∀ registry_name auto_setup w w',
     Inv w →
     final (RegistryFactory.create registry_name auto_setup w) = Some w' →
     Inv w') →
  (∀ (A : Type) (method : M Store A) w w',
     item_method A method → Inv w →
     final (in_store method w) = Some w' → Inv w') →
  ∀ w, reachable w → Inv w.
Proof.
  intros Hstart Hcreate Hitem w.
  induction 1 as [|rn a w w' _ IH Hfin|A rn method w w' _ IH Hm Hfin
                  |A method w w' _ IH Hm Hfin|w w' _ IH Hfin
                  |rn k rq rs w w' _ IH Hfin|w w' _ IH Hfin
                  |rn k w w' _ IH Hfin|rn w w' _ IH Hfin|rn w w' _ IH Hfin].
  - exact Hstart.
  - exact (Hcreate _ _ _ _ IH Hfin).
  - exact (proj1 (inv_registry_arrow _ rn method Hm w w' eq_refl IH Hfin)).
  - exact (Hitem _ _ _ _ Hm IH Hfin).
  - exact (proj1 (inv_getBroadcast _ w w' eq_refl IH Hfin)).
  - exact (proj1 (inv_call _ rn k rq rs w w' eq_refl IH Hfin)).
  - exact (proj1 (inv_setUp _ w w' eq_refl IH Hfin)).
  - exact (proj1 (inv_exists _ rn k w w' eq_refl IH Hfin)).
  - exact (proj1 (inv_names _ rn w w' eq_refl IH Hfin)).
  - exact (proj1 (inv_count_of _ rn w w' eq_refl IH Hfin)).
Qed.

End invariant.

Lemma create_bound (registry_name : string) (auto_setup : bool)
    (w : RegistryFactory.world) (h : option loc) :
  RegistryFactory.registries_ (RegistryFactory.instance w) !! registry_name
  = Some h →
  RegistryFactory.create registry_name auto_setup w = Ret 0%Z w.
Proof.
  intros Hrn.
  unfold RegistryFactory.create, RegistryFactory.registries, bind, gets.
  by rewrite (map_count_Some _ _ _ Hrn).
Qed.

Lemma create_free (registry_name : string) (auto_setup : bool)
    (w : RegistryFactory.world) :
  RegistryFactory.registries_ (RegistryFactory.instance w) !! registry_name
  = None →
  RegistryFactory.create registry_name auto_setup w
  = Ret 0%Z (created w registry_name auto_setup).
Proof.
  intros Hrn.
  unfold RegistryFactory.create, RegistryFactory.registries, bind at 1, gets.
  rewrite (map_count_None _ _ Hrn). simpl.
  unfold RegistryFactory.new_core, RegistryFactory.arrow,
    RegistryFactory.set_registries, RegistryCore.setName, bind, gets, modify,
    ret.
  simpl. rewrite lookup_insert_eq. simpl. unfold created.
  by rewrite insert_insert_eq.
Qed.

Lemma created_fresh (w : RegistryFactory.world) :
  RegistryFactory.cores w !! fresh (dom (RegistryFactory.cores w)) = None.
Proof. apply not_elem_of_dom, is_fresh. Qed.

Lemma create_sound (registry_name : string) (auto_setup : bool)
    (w w' : RegistryFactory.world) :
  sound w →
  final (RegistryFactory.create registry_name auto_setup w) = Some w' →
  sound w'.
Proof.
  intros [Hwf [Hbinj Hsep]] Hfin.
  split; [exact (create_wf _ _ _ _ Hwf Hfin)|].
  destruct (RegistryFactory.registries_ (RegistryFactory.instance w)
              !! registry_name) as [h|] eqn:Hrn.
  { rewrite (create_bound _ _ _ _ Hrn) in Hfin. by injection Hfin as <-. }
  rewrite (create_free _ _ _ Hrn) in Hfin. injection Hfin as <-.
  set (c := fresh (dom (RegistryFactory.cores w))).
  pose proof (created_fresh w) as Hfresh. fold c in Hfresh.
  assert (∀ rn c0,
            RegistryFactory.registries_
              (RegistryFactory.instance (created w registry_name auto_setup))
              !! rn = Some (Some c0) →
            (rn = registry_name ∧ c0 = c)
            ∨ (RegistryFactory.registries_ (RegistryFactory.instance w) !! rn
               = Some (Some c0) ∧ c0 ≠ c)) as Hb.
  { intros rn c0. unfold created. simpl. rewrite lookup_insert.
    case_decide as Hcase; [intros [= <-]; by left|]. intros Hold. right.
    split; [done|]. intros ->.
    destruct (handle_ok_inv _ _ (Hwf _ _ Hold)) as (? & ? & [= <-] & Hc & _).
    fold c in Hfresh. congruence. }
  split.
  - intros rn1 rn2 c0 H1 H2.
    destruct (Hb _ _ H1) as [[-> ->]|[H1' Hn1]],
      (Hb _ _ H2) as [[-> Hc2]|[H2' Hn2]]; try done.
    exact (Hbinj _ _ _ H1' H2').
  - assert (∀ rn c0 r0 k l,
              bound (created w registry_name auto_setup) rn c0 r0 →
              RegistryCore.items_ r0 !! k = Some l → bound w rn c0 r0) as Hold.
    { intros rn c0 r0 k l [Hrn0 Hc0] Hk. unfold created in Hc0. simpl in Hc0.
      destruct (Hb _ _ Hrn0) as [[-> ->]|[Hrn0' Hne]].
      - fold c in Hc0. rewrite lookup_insert_eq in Hc0.
        injection Hc0 as <-. simpl in Hk. by rewrite lookup_empty in Hk.
      - fold c in Hc0. rewrite lookup_insert_ne in Hc0 by done. by split. }
    intros rn1 rn2 c1 c2 r1 r2 k1 k2 l Hb1 Hb2 Hk1 Hk2.
    exact (Hsep _ _ _ _ _ _ _ _ _ (Hold _ _ _ _ _ Hb1 Hk1)
             (Hold _ _ _ _ _ Hb2 Hk2) Hk1 Hk2).
Qed.

Lemma item_method_sound {A : Type} (method : M Store A)
    (w w' : RegistryFactory.world) :
  item_method A method → sound w →
  final (in_store method w) = Some w' → sound w'.
Proof.
  intros Hm [Hwf Hsep] Hfin.
  split; [exact (item_method_wf _ _ _ Hm Hwf Hfin)|].
  unfold in_store, zoom in Hfin.
  by destruct (method (RegistryFactory.store w)) as [a σ|e σ|];
    simpl in Hfin; [| |done]; injection Hfin as <-.
Qed.

(** Every world reached through the interface is well formed and has
    containers that share nothing. *)
Lemma reachable_sound (w : RegistryFactory.world) : reachable w → sound w.
Proof.
  apply (reachable_inv sound).
  - intros i A h rn method. apply sound_arrow.
  - split; [apply map_Forall_empty|]. split.
    + intros rn1 rn2 c H1. simpl in H1. by rewrite lookup_empty in H1.
    + intros rn1 rn2 c1 c2 r1 r2 k1 k2 l [H1 _]. simpl in H1.
      by rewrite lookup_empty in H1.
  - intros rn a w0 w'. apply create_sound.
  - intros A method w0 w' Hm. by apply item_method_sound.
Qed.

(** ** The values of a broadcast *)

Lemma foldl_insert_notin {V W : Type} (f : V → W) (l : list (string * V)) :
  ∀ (acc : gmap string W) (k : string),
    k ∉ l.*1 → foldl (λ t e, <[e.1 := f e.2]> t) acc l !! k = acc !! k.
Proof.
  induction l as [|[k0 v0] l IH]; intros acc k Hk; [done|].
  apply not_elem_of_cons in Hk as [Hne Hk]. simpl.
  rewrite (IH _ _ Hk). by apply lookup_insert_ne.
Qed.

Lemma foldl_insert_in {V W : Type} (f : V → W) (l : list (string * V)) :
  ∀ (acc : gmap string W) (k : string) (v : V),
    NoDup l.*1 → (k, v) ∈ l →
    foldl (λ t e, <[e.1 := f e.2]> t) acc l !! k = Some (f v).
Proof.
  induction l as [|[k0 v0] l IH]; intros acc k v Hnd Hin.
  - by apply elem_of_nil in Hin.
  - apply NoDup_cons in Hnd as [Hk0 Hnd]. simpl.
    apply elem_of_cons in Hin as [[= -> ->]|Hin].
    + rewrite foldl_insert_notin by done. apply lookup_insert_eq.
    + by apply IH.
Qed.

Lemma foldl_insert_map_iter {V W : Type} (f : V → W) (m : gmap string V) :
  foldl (λ t e, <[e.1 := f e.2]> t) ∅ (map_iter m) = f <$> m.
Proof.
  apply map_eq. intros k. rewrite lookup_fmap.
  destruct (m !! k) as [v|] eqn:Hk; simpl.
  - apply foldl_insert_in; [apply NoDup_map_iter_fst|].
    by apply elem_of_map_iter.
  - rewrite foldl_insert_notin; [done|].
    intros ([k' v] & -> & Hin)%list_elem_of_fmap.
    apply elem_of_map_iter in Hin. simpl in Hk. congruence.
Qed.

Lemma route_of_ext (σ σ' : Store) (m : gmap string loc) :
  (∀ k l, m !! k = Some l → objs σ' !! l = objs σ !! l) →
  route_of σ' <$> m = route_of σ <$> m.
Proof.
  intros Hsame. apply map_fmap_ext. intros k l Hk.
  unfold route_of. by rewrite (Hsame _ _ Hk).
Qed.

Lemma broadcast_values (rt : option loc → RegistryRoutes)
    (regs : list (string * option loc)) :
  ∀ (w : RegistryFactory.world) (acc : RegistryBroadcast),
    sound w →
    NoDup regs.*1 →
    Forall (λ registry,
              RegistryFactory.registries_ (RegistryFactory.instance w)
                !! registry.1 = Some registry.2
              ∧ rt registry.2 = routes_in w registry.2) regs →
    ∃ σ',
      for_fold regs acc (λ broadcast registry,
        let* routes :=
          RegistryFactory.arrow registry.2 RegistryCore.getRoutes in
        ret (<[registry.1 := routes]> broadcast)) w
      = Ret (foldl (λ b registry, <[registry.1 := rt registry.2]> b) acc regs)
            (with_store w σ')
      ∧ dom (objs σ') = dom (objs (RegistryFactory.store w)).
Proof.
  induction regs as [|[rn0 h0] regs IH]; intros w acc Hsound Hnd Hregs.
  - exists (RegistryFactory.store w). simpl. unfold ret.
    by rewrite with_store_same.
  - destruct Hsound as [Hwf [Hbinj Hsep]].
    apply NoDup_cons in Hnd as [Hrn0 Hnd].
    apply Forall_cons in Hregs as [[Hb0 Hrt0] Hregs]. simpl in Hb0, Hrt0, Hrn0.
    destruct (handle_ok_inv _ _ (Hwf _ _ Hb0))
      as (c0 & r0 & -> & Hc0 & Hlive & Hun).
    cbn [for_fold]. unfold bind at 1. unfold bind at 1. cbn [fst snd].
    rewrite (arrow_live _ _ _ _ Hc0), (getRoutes_spec _ _ Hlive Hun).
    rewrite (with_core_store _ _ _ _ Hc0). unfold ret at 1.
    set (σ1 := with_objs _ _ _).
    assert (dom (objs σ1) = dom (objs (RegistryFactory.store w))) as Hdom1.
    { unfold σ1. cbn [objs with_objs]. apply dom_alter_all. }
    destruct (IH (with_store w σ1)
                (<[rn0 := route_of (RegistryFactory.store w)
                            <$> RegistryCore.items_ r0]> acc))
      as (σ' & Hrun & Hdom); [| done |..].
    { split; [|done]. intros rn h Hb. apply handle_ok_store; [done|].
      exact (Hwf rn h Hb). }
    { apply Forall_forall. intros [rn h] Hmem.
      destruct (proj1 (Forall_forall _ _) Hregs _ Hmem) as [Hb Hrt].
      simpl in Hb, Hrt. split; [done|]. cbn [snd]. rewrite Hrt.
      destruct (handle_ok_inv _ _ (Hwf _ _ Hb)) as (c & r & -> & Hc & _).
      unfold routes_in. cbn [RegistryFactory.cores RegistryFactory.store
        with_store]. rewrite Hc. symmetry. apply route_of_ext.
      intros k l Hk. unfold σ1. cbn [objs with_objs].
      apply lookup_alter_all_notin.
      intros ([k0 l0] & -> & Hin%elem_of_map_iter)%list_elem_of_fmap.
      simpl in Hk. apply Hrn0.
      rewrite (Hsep rn0 rn c0 c r0 r k0 k l0) by done.
      by apply (list_elem_of_fmap_2 fst _ (rn, Some c)). }
    exists σ'. split; [|by rewrite Hdom].
    rewrite Hrun. simpl. rewrite Hrt0. unfold routes_in. by rewrite Hc0.
Qed.

Lemma getBroadcast_values (w : RegistryFactory.world) :
  sound w →
  ∃ σ',
    RegistryFactory.getBroadcast w
    = Ret (routes_in w
             <$> RegistryFactory.registries_ (RegistryFactory.instance w))
          (with_store w σ')
    ∧ dom (objs σ') = dom (objs (RegistryFactory.store w)).
Proof.
  intros Hsound.
  unfold RegistryFactory.getBroadcast, RegistryFactory.registries,
    bind at 1, gets.
  destruct (broadcast_values (routes_in w)
              (map_iter (RegistryFactory.registries_
                           (RegistryFactory.instance w)))
              w ∅ Hsound (NoDup_map_iter_fst _)) as (σ' & Hrun & Hdom).
  { apply Forall_forall. by intros [rn h] Hin%elem_of_map_iter. }
  exists σ'. by rewrite Hrun, foldl_insert_map_iter.
Qed.

Lemma with_items_same (r : RegistryCore.t) :
  with_items r (RegistryCore.items_ r) = r.
Proof. by destruct r. Qed.

Lemma getRoutes_after_remove (r : RegistryCore.t) (σ : Store) (k : string) :
  live (RegistryCore.items_ r) σ →
  unshared (RegistryCore.items_ r) →
  ∃ routes σ',
    (RegistryCore.remove k;; RegistryCore.getRoutes) (r, σ)
    = Ret routes (with_items r (delete k (RegistryCore.items_ r)), σ')
    ∧ routes !! k = None
    ∧ dom routes = dom (RegistryCore.items_ r) ∖ {[k]}.
Proof.
  intros Hlive Hun. unfold bind.
  destruct (RegistryCore.items_ r !! k) as [l|] eqn:Hk.
  - destruct (Hlive k l Hk) as [o Ho].
    rewrite (remove_present _ _ _ _ _ Hk Ho).
    set (r' := with_items r (delete k (RegistryCore.items_ r))).
    set (σ1 := with_objs σ _ _).
    rewrite (getRoutes_spec r' σ1).
    + eexists _, _. split; [done|].
      change (RegistryCore.items_ r') with (delete k (RegistryCore.items_ r)).
      split.
      * by rewrite lookup_fmap, lookup_delete_eq.
      * by rewrite dom_fmap_L, dom_delete_L.
    + apply live_delete. apply (live_dom _ σ); [|done].
      unfold σ1. cbn [objs with_objs]. by apply dom_insert_lookup_L.
    + by apply unshared_delete.
  - rewrite (remove_absent _ _ _ Hk), (delete_id _ _ Hk), with_items_same.
    rewrite (getRoutes_spec _ _ Hlive Hun).
    eexists _, _. split; [done|]. split.
    + by rewrite lookup_fmap, Hk.
    + rewrite dom_fmap_L. apply set_eq. intros k'.
      rewrite elem_of_difference, elem_of_singleton, elem_of_dom.
      split; [|by intros [? _]]. intros Hk'. split; [done|].
      intros ->. rewrite Hk in Hk'. by destruct Hk'.
Qed.

(** C7: the route table of a container whose handles are live and unshared
    has one entry for every present item and no other, the entry of an item
    being what its [routeInfo] returns, and [routeInfo] runs once on each
    item; after a [remove] the table has no entry under the removed name.
    The broadcast of a Directory of such containers has one entry for every
    registry name and no other, the entry of a registry having one route for
    every item of its container and no other.  When the containers share
    nothing, the entry of a registry is the route table of its container:
    what [getRoutes] returns for it, each item with what its [routeInfo]
    returns. *)
Theorem routes_spec :
  (∀ (r : RegistryCore.t) (σ : Store),
     live (RegistryCore.items_ r) σ →
     unshared (RegistryCore.items_ r) →
     let m := RegistryCore.items_ r in
     RegistryCore.getRoutes (r, σ)
     = Ret (route_of σ <$> m)
           (r, with_objs σ
                 (alter_all after_routeInfo (map_iter m).*2 (objs σ))
                 (Ev_routeInfo <$> (map_iter m).*2))
     ∧ dom (route_of σ <$> m) = dom m
     ∧ NoDup (map_iter m).*2
     ∧ (∀ k l o, m !! k = Some l → objs σ !! l = Some o →
          (route_of σ <$> m) !! k
          = Some (Plugin.routeInfo (Plugin.cls o) (Plugin.st o)).1)
     ∧ (∀ k, ∃ routes σ',
          (RegistryCore.remove k;; RegistryCore.getRoutes) (r, σ)
          = Ret routes (with_items r (delete k m), σ')
          ∧ routes !! k = None
          ∧ dom routes = dom m ∖ {[k]}))
  ∧ (∀ w : RegistryFactory.world,
       wf_world w →
       ∃ broadcast σ',
         RegistryFactory.getBroadcast w = Ret broadcast (with_store w σ')
         ∧ dom broadcast
           = dom (RegistryFactory.registries_ (RegistryFactory.instance w))
         ∧ ∀ rn c r,
             RegistryFactory.registries_ (RegistryFactory.instance w) !! rn
             = Some (Some c) →
             RegistryFactory.cores w !! c = Some r →
             ∃ routes, broadcast !! rn = Some routes
                       ∧ dom routes = dom (RegistryCore.items_ r))
  ∧ (∀ w : RegistryFactory.world,
       sound w →
       ∃ broadcast σ',
         RegistryFactory.getBroadcast w = Ret broadcast (with_store w σ')
         ∧ broadcast
           = routes_in w
               <$> RegistryFactory.registries_ (RegistryFactory.instance w)
         ∧ ∀ rn c r,
             bound w rn c r →
             let routes := route_of (RegistryFactory.store w)
                             <$> RegistryCore.items_ r in
             broadcast !! rn = Some routes
             ∧ (∃ σr, RegistryCore.getRoutes (r, RegistryFactory.store w)
                      = Ret routes (r, σr))
             ∧ ∀ k l o,
                 RegistryCore.items_ r !! k = Some l →
                 objs (RegistryFactory.store w) !! l = Some o →
                 routes !! k
                 = Some (Plugin.routeInfo (Plugin.cls o) (Plugin.st o)).1).
Proof.
  split; [|split; [apply getBroadcast_spec|]].
  - intros r σ Hlive Hun m.
    split; [by apply getRoutes_spec|]. split; [apply dom_fmap_L|].
    split; [by apply NoDup_map_iter_snd|]. split.
    + intros k l o Hk Ho. rewrite lookup_fmap, Hk. simpl.
      unfold route_of. by rewrite Ho.
    + intros k. by apply getRoutes_after_remove.
  - intros w Hsound. destruct (getBroadcast_values w Hsound) as (σ' & Hrun & _).
    eexists _, σ'. split; [exact Hrun|]. split; [done|].
    intros rn c r [Hrn Hc] routes. split; [|split].
    + rewrite lookup_fmap, Hrn. simpl. unfold routes_in. by rewrite Hc.
    + pose proof (proj1 Hsound rn _ Hrn) as Hok. unfold handle_ok in Hok.
      rewrite Hc in Hok. destruct Hok as [Hlive Hun]. eexists.
      by apply getRoutes_spec.
    + intros k l o Hk Ho. unfold routes. rewrite lookup_fmap, Hk. simpl.
      unfold route_of. by rewrite Ho.
Qed.

Lemma greeter_world_wf : wf_world greeter_world.
Proof. apply (bool_decide_unpack _). vm_compute. exact I. Defined.

Lemma greeter_world_sound : sound greeter_world.
Proof. exact (reachable_sound _ greeter_world_reachable). Defined.

Lemma routes_spec_witness :
  (∃ σ', RegistryCore.getRoutes (greeter, greeter_store)
         = Ret {[ "hello" := {[ "kind" := "greeting" ]}; "broken" := ∅ ]}
               (greeter, σ'))
  ∧ (∃ broadcast σ',
       RegistryFactory.getBroadcast greeter_world
       = Ret broadcast (with_store greeter_world σ')
       ∧ dom broadcast = {[ "greeter" ]})
  ∧ ∃ σ',
      RegistryFactory.getBroadcast greeter_world
      = Ret {[ "greeter" :=
                 {[ "hello" := {[ "kind" := "greeting" ]}; "broken" := ∅ ]} ]}
            (with_store greeter_world σ').
Proof.
  split; [|split].
  - destruct (proj1 routes_spec greeter greeter_store greeter_live
                greeter_unshared) as (Hrun & _).
    eexists. rewrite Hrun. vm_compute. reflexivity.
  - destruct (proj1 (proj2 routes_spec) greeter_world greeter_world_wf)
      as (broadcast & σ' & Hrun & Hdom & _).
    exists broadcast, σ'. split; [exact Hrun|]. rewrite Hdom.
    vm_compute. reflexivity.
  - destruct (proj2 (proj2 routes_spec) greeter_world greeter_world_sound)
      as (broadcast & σ' & Hrun & -> & _).
    exists σ'. rewrite Hrun. vm_compute. reflexivity.
Defined.

(** * Further properties of the header *)

(** ** RegistryFactory::create *)

(** X1: [create] under a name that is already bound (to whatever container,
    made with whatever [auto_setup]) returns 0 and changes nothing.  Under a
    free name it allocates one container, named [registry_name], empty, with
    the given [auto_setup], binds the name to it, and leaves every other
    binding, every other container and the plugin store as they were. *)
Theorem create_spec (registry_name : string) (auto_setup : bool)
    (w : RegistryFactory.world) :
  (∀ h, RegistryFactory.registries_ (RegistryFactory.instance w)
          !! registry_name = Some h →
        RegistryFactory.create registry_name auto_setup w = Ret 0%Z w)
  ∧ (RegistryFactory.registries_ (RegistryFactory.instance w)
       !! registry_name = None →
     let c := fresh (dom (RegistryFactory.cores w)) in
     let w' := created w registry_name auto_setup in
     RegistryFactory.create registry_name auto_setup w = Ret 0%Z w'
     ∧ RegistryFactory.cores w !! c = None
     ∧ RegistryFactory.registries_ (RegistryFactory.instance w')
         !! registry_name = Some (Some c)
     ∧ RegistryFactory.cores w' !! c
       = Some (RegistryCore.mk registry_name ∅ auto_setup)
     ∧ (∀ rn, rn ≠ registry_name →
          RegistryFactory.registries_ (RegistryFactory.instance w') !! rn
          = RegistryFactory.registries_ (RegistryFactory.instance w) !! rn)
     ∧ (∀ c' r, RegistryFactory.cores w !! c' = Some r →
          RegistryFactory.cores w' !! c' = Some r)
     ∧ RegistryFactory.store w' = RegistryFactory.store w).
Proof.
  split; [intros h; apply create_bound|].
  intros Hrn c w'. split; [by apply create_free|].
  split; [apply created_fresh|]. unfold w', created. simpl.
  split; [apply lookup_insert_eq|]. split; [apply lookup_insert_eq|].
  split; [intros rn Hne; by apply lookup_insert_ne|]. split; [|done].
  intros c' r Hc'. rewrite lookup_insert_ne; [done|].
  intros <-. pose proof (created_fresh w). congruence.
Qed.

Lemma create_spec_witness :
  RegistryFactory.create "greeter" false greeter_world = Ret 0%Z greeter_world
  ∧ RegistryFactory.create "logger" false greeter_world
    = Ret 0%Z (created greeter_world "logger" false).
Proof.
  split.
  - apply (proj1 (create_spec "greeter" false greeter_world)
             (Some 1%positive)).
    reflexivity.
  - apply (proj2 (create_spec "logger" false greeter_world)). reflexivity.
Defined.

(** ** The queries of the Directory *)

Lemma factory_exists_absent (registry_name item_name : string)
    (w : RegistryFactory.world) :
  RegistryFactory.registries_ (RegistryFactory.instance w) !! registry_name
  = None →
  RegistryFactory.exists_ registry_name item_name w = Ret false w.
Proof.
  intros Hrn.
  unfold RegistryFactory.exists_, RegistryFactory.registries, bind, gets.
  by rewrite (map_count_None _ _ Hrn).
Qed.

Lemma factory_exists_bound (registry_name item_name : string)
    (w : RegistryFactory.world) (c : loc) (r : RegistryCore.t) :
  RegistryFactory.registries_ (RegistryFactory.instance w) !! registry_name
  = Some (Some c) →
  RegistryFactory.cores w !! c = Some r →
  RegistryFactory.exists_ registry_name item_name w
  = Ret (bool_decide (is_Some (RegistryCore.items_ r !! item_name))) w.
Proof.
  intros Hrn Hc.
  unfold RegistryFactory.exists_, RegistryFactory.registries, bind at 1, gets.
  rewrite (map_count_Some _ _ _ Hrn). simpl. unfold bind.
  rewrite (registry_present _ _ _ Hrn), (arrow_live _ _ _ _ Hc).
  by rewrite exists_spec, (with_core_same _ _ _ Hc).
Qed.

(** X2: [exists] through the Directory never throws on an unknown registry:
    it answers false; for a bound registry it answers whether the item name
    is present in that container; either way nothing changes.  It answers
    false in the two cases in which [call] on the same pair runs no plugin
    and returns RegistryNotFound or ItemNotFound, and true when [call] is
    delivered to the object registered under the item name. *)
Theorem factory_exists_spec (registry_name item_name : string)
    (w : RegistryFactory.world) :
  (RegistryFactory.registries_ (RegistryFactory.instance w) !! registry_name
   = None →
   RegistryFactory.exists_ registry_name item_name w = Ret false w
   ∧ ∀ request response,
       RegistryFactory.call registry_name item_name request response w
       = Ret (RegistryNotFound registry_name item_name, response) w)
  ∧ (∀ c r,
       RegistryFactory.registries_ (RegistryFactory.instance w)
         !! registry_name = Some (Some c) →
       RegistryFactory.cores w !! c = Some r →
       RegistryFactory.exists_ registry_name item_name w
       = Ret (bool_decide (is_Some (RegistryCore.items_ r !! item_name))) w
       ∧ (RegistryCore.items_ r !! item_name = None →
          RegistryFactory.exists_ registry_name item_name w = Ret false w
          ∧ ∀ request response,
              RegistryFactory.call registry_name item_name request response w
              = Ret (ItemNotFound item_name, response) w)
       ∧ (∀ l o,
            RegistryCore.items_ r !! item_name = Some l →
            objs (RegistryFactory.store w) !! l = Some o →
            RegistryFactory.exists_ registry_name item_name w = Ret true w
            ∧ ∀ request response,
                RegistryFactory.call registry_name item_name request
                  response w
                = Ret (Plugin.call (Plugin.cls o) (Plugin.st o)
                         request response).1
                      (with_store w
                         (with_objs (RegistryFactory.store w)
                            (<[l := after_call request response o]>
                               (objs (RegistryFactory.store w)))
                            [Ev_call l request])))).
Proof.
  split.
  - intros Hrn. split; [by apply factory_exists_absent|].
    intros request response. by apply factory_call_no_registry.
  - intros c r Hrn Hc.
    rewrite (factory_exists_bound _ _ _ _ _ Hrn Hc).
    split; [done|]. split.
    + intros Hk. rewrite Hk. split.
      * by rewrite bool_decide_eq_false_2 by by intros [].
      * intros request response.
        exact (factory_call_no_item _ _ _ _ _ _ _ Hrn Hc Hk).
    + intros l o Hk Ho. rewrite Hk. split.
      * by rewrite bool_decide_eq_true_2 by by eexists.
      * intros request response.
        rewrite (factory_call_registry _ _ _ _ _ _ _ Hrn Hc).
        rewrite (call_present _ _ _ _ _ _ _ Hk Ho).
        by rewrite (with_core_store _ _ _ _ Hc).
Qed.

Lemma factory_exists_spec_witness :
  RegistryFactory.exists_ "logger" "hello" greeter_world
  = Ret false greeter_world
  ∧ RegistryFactory.exists_ "greeter" "hello" greeter_world
    = Ret true greeter_world
  ∧ RegistryFactory.exists_ "greeter" "goodbye" greeter_world
    = Ret false greeter_world.
Proof.
  split; [|split].
  - apply (proj1 (factory_exists_spec "logger" "hello" greeter_world)).
    reflexivity.
  - apply (proj2 (proj2 (proj2 (factory_exists_spec "greeter" "hello"
                                  greeter_world)
                           1%positive greeter eq_refl eq_refl))
             1%positive (Plugin.mkObj "hello" hello_class tt));
      reflexivity.
  - apply (proj1 (proj2 (proj2 (factory_exists_spec "greeter" "goodbye"
                                  greeter_world)
                           1%positive greeter eq_refl eq_refl))).
    reflexivity.
Defined.

Lemma factory_count_of_bound (registry_name : string)
    (w : RegistryFactory.world) (c : loc) (r : RegistryCore.t) :
  RegistryFactory.registries_ (RegistryFactory.instance w) !! registry_name
  = Some (Some c) →
  RegistryFactory.cores w !! c = Some r →
  RegistryFactory.count_of registry_name w
  = Ret (size (RegistryCore.items_ r)) w.
Proof.
  intros Hrn Hc.
  unfold RegistryFactory.count_of, RegistryFactory.registries, bind at 1,
    gets.
  rewrite (map_count_Some _ _ _ Hrn). simpl. unfold bind.
  rewrite (registry_present _ _ _ Hrn), (arrow_live _ _ _ _ Hc).
  unfold RegistryCore.count, RegistryCore.items, bind, gets, ret. simpl.
  by rewrite (with_core_same _ _ _ Hc).
Qed.

(** X3: [count(registry_name)] is 0 for an unknown registry, without
    throwing, and the number of items of the container for a bound one;
    [count()] is the number of bound registry names.  Neither changes
    anything. *)
Theorem factory_count_spec (registry_name : string)
    (w : RegistryFactory.world) :
  RegistryFactory.count w
  = Ret (size (RegistryFactory.registries_ (RegistryFactory.instance w))) w
  ∧ (RegistryFactory.registries_ (RegistryFactory.instance w)
       !! registry_name = None →
     RegistryFactory.count_of registry_name w = Ret 0 w)
  ∧ (∀ c r,
       RegistryFactory.registries_ (RegistryFactory.instance w)
         !! registry_name = Some (Some c) →
       RegistryFactory.cores w !! c = Some r →
       RegistryFactory.count_of registry_name w
       = Ret (size (RegistryCore.items_ r)) w).
Proof.
  split; [done|]. split; [|intros c r; apply factory_count_of_bound].
  intros Hrn.
  unfold RegistryFactory.count_of, RegistryFactory.registries, bind, gets.
  by rewrite (map_count_None _ _ Hrn).
Qed.

Lemma factory_count_spec_witness :
  RegistryFactory.count_of "logger" greeter_world = Ret 0 greeter_world
  ∧ RegistryFactory.count_of "greeter" greeter_world = Ret 2 greeter_world.
Proof.
  split.
  - apply (proj1 (proj2 (factory_count_spec "logger" greeter_world))).
    reflexivity.
  - apply (proj2 (proj2 (factory_count_spec "greeter" greeter_world))
             1%positive greeter); reflexivity.
Defined.

Lemma factory_get_bound (registry_name item_name : string)
    (w : RegistryFactory.world) (c : loc) (r : RegistryCore.t) :
  RegistryFactory.registries_ (RegistryFactory.instance w) !! registry_name
  = Some (Some c) →
  RegistryFactory.cores w !! c = Some r →
  RegistryFactory.get registry_name item_name w
  = match RegistryCore.items_ r !! item_name with
    | Some l => Ret l w
    | None => Throw out_of_range w
    end.
Proof.
  intros Hrn Hc. unfold RegistryFactory.get, bind.
  rewrite (registry_present _ _ _ Hrn), (arrow_live _ _ _ _ Hc).
  destruct (RegistryCore.items_ r !! item_name) as [l|] eqn:Hk.
  - by rewrite (get_present _ _ _ _ Hk), (with_core_same _ _ _ Hc).
  - by rewrite (get_absent _ _ _ Hk), (with_core_same _ _ _ Hc).
Qed.

(** X4: [get(registry_name, item_name)] through the Directory throws
    [std::out_of_range] when the registry name is unknown and also when the
    registry is bound but has no such item; otherwise it returns the handle
    stored under the item name.  In all three cases the world is left as it
    was and no plugin code runs. *)
Theorem factory_get_spec (registry_name item_name : string)
    (w : RegistryFactory.world) :
  (RegistryFactory.registries_ (RegistryFactory.instance w) !! registry_name
   = None →
   RegistryFactory.get registry_name item_name w = Throw out_of_range w)
  ∧ (∀ c r,
       RegistryFactory.registries_ (RegistryFactory.instance w)
         !! registry_name = Some (Some c) →
       RegistryFactory.cores w !! c = Some r →
       (RegistryCore.items_ r !! item_name = None →
        RegistryFactory.get registry_name item_name w = Throw out_of_range w)
       ∧ (∀ l, RegistryCore.items_ r !! item_name = Some l →
               RegistryFactory.get registry_name item_name w = Ret l w)).
Proof.
  split.
  - intros Hrn. unfold RegistryFactory.get, bind.
    by rewrite (registry_absent _ _ Hrn).
  - intros c r Hrn Hc.
    rewrite (factory_get_bound _ _ _ _ _ Hrn Hc).
    split; [by intros ->|by intros l ->].
Qed.

Lemma factory_get_spec_witness :
  RegistryFactory.get "logger" "hello" greeter_world
  = Throw out_of_range greeter_world
  ∧ RegistryFactory.get "greeter" "goodbye" greeter_world
    = Throw out_of_range greeter_world
  ∧ RegistryFactory.get "greeter" "hello" greeter_world
    = Ret 1%positive greeter_world.
Proof.
  split; [|split].
  - apply (proj1 (factory_get_spec "logger" "hello" greeter_world)).
    reflexivity.
  - apply (proj1 (proj2 (factory_get_spec "greeter" "goodbye" greeter_world)
                    1%positive greeter eq_refl eq_refl)).
    reflexivity.
  - apply (proj2 (proj2 (factory_get_spec "greeter" "hello" greeter_world)
                    1%positive greeter eq_refl eq_refl)).
    reflexivity.
Defined.

(** ** RegistryCore::names, count and exists *)

(** X5: [names] of a container returns every present item name once, in
    ascending order of [std::string], and nothing else; [count] is the
    length of that sequence and [exists] is membership in it.  None of the
    three changes the container or runs plugin code. *)
Theorem names_spec (r : RegistryCore.t) (σ : Store) :
  ∃ ns,
    RegistryCore.names (r, σ) = Ret ns (r, σ)
    ∧ NoDup ns
    ∧ Sorted name_le ns
    ∧ (∀ k, k ∈ ns ↔ is_Some (RegistryCore.items_ r !! k))
    ∧ RegistryCore.count (r, σ) = Ret (length ns) (r, σ)
    ∧ ∀ k, RegistryCore.exists_ k (r, σ) = Ret (bool_decide (k ∈ ns)) (r, σ).
Proof.
  exists (map_iter (RegistryCore.items_ r)).*1.
  assert (∀ k, k ∈ (map_iter (RegistryCore.items_ r)).*1
               ↔ is_Some (RegistryCore.items_ r !! k)) as Hmem.
  { intros k. rewrite list_elem_of_fmap. split.
    - intros ([k' l] & -> & Hin%elem_of_map_iter). by eexists.
    - intros [l Hk]. exists (k, l). by rewrite elem_of_map_iter. }
  split; [apply core_names_spec|]. split; [apply NoDup_map_iter_fst|].
  split.
  { apply (Sorted_fmap _ key_le); [by intros [] []|apply map_iter_sorted]. }
  split; [exact Hmem|]. split.
  - unfold RegistryCore.count, RegistryCore.items, bind, gets, ret. simpl.
    by rewrite length_fmap, map_iter_perm, length_map_to_list.
  - intros k. rewrite exists_spec. f_equal. apply bool_decide_ext.
    symmetry. apply Hmem.
Qed.

(** ** Registration, lookup and removal composed *)

Lemma add_added (Item : Plugin.class) (item_name : string)
    (r : RegistryCore.t) (σ : Store) :
  RegistryCore.items_ r !! item_name = None →
  RegistryCore.add Item item_name (r, σ)
  = Ret (mkStatus 0 "OK") (added Item item_name (r, σ)).
Proof. apply add_fresh. Qed.

Lemma added_lookup (Item : Plugin.class) (item_name : string)
    (r : RegistryCore.t) (σ : Store) :
  RegistryCore.items_ (added Item item_name (r, σ)).1 !! item_name
  = Some (fresh (dom (objs σ)))
  ∧ objs (added Item item_name (r, σ)).2 !! fresh (dom (objs σ))
    = Some (Plugin.mkObj item_name Item (Plugin.ctor Item)).
Proof. unfold added. simpl. by rewrite !lookup_insert_eq. Qed.

(** X6: once [add] has registered a class under a free name, [get] of that
    name returns the handle of the new object, which carries the name and
    was made by the constructor of the class; [exists] answers true, [count]
    is one more than before, and a [call] under the name, without any
    [setUp] in between, is answered by the [call] of the class on the state
    its constructor left. *)
Theorem add_then_lookup (Item : Plugin.class) (item_name : string)
    (r : RegistryCore.t) (σ : Store) :
  RegistryCore.items_ r !! item_name = None →
  let l := fresh (dom (objs σ)) in
  let σ' := added Item item_name (r, σ) in
  (RegistryCore.add Item item_name;; RegistryCore.get item_name) (r, σ)
  = Ret l σ'
  ∧ objs σ'.2 !! l = Some (Plugin.mkObj item_name Item (Plugin.ctor Item))
  ∧ (RegistryCore.add Item item_name;; RegistryCore.exists_ item_name) (r, σ)
    = Ret true σ'
  ∧ (RegistryCore.add Item item_name;; RegistryCore.count) (r, σ)
    = Ret (S (size (RegistryCore.items_ r))) σ'
  ∧ ∀ request response,
      ∃ σ'',
        (RegistryCore.add Item item_name;;
         RegistryCore.call item_name request response) (r, σ)
        = Ret (Plugin.call Item (Plugin.ctor Item) request response).1 σ''.
Proof.
  intros Hk l σ'. destruct (added_lookup Item item_name r σ) as [Hl Ho].
  fold l in Hl, Ho. fold σ' in Hl, Ho.
  assert (σ' = (σ'.1, σ'.2)) as Hσ' by by destruct σ'.
  split; [|split; [done|split; [|split]]].
  - unfold bind. rewrite (add_added _ _ _ _ Hk). fold σ'. rewrite Hσ'.
    by rewrite (get_present _ _ _ _ Hl).
  - unfold bind. rewrite (add_added _ _ _ _ Hk). fold σ'. rewrite Hσ'.
    rewrite exists_spec, Hl. by rewrite bool_decide_eq_true_2 by by eexists.
  - unfold bind. rewrite (add_added _ _ _ _ Hk). subst σ'.
    unfold RegistryCore.count, RegistryCore.items, bind, gets, ret, added,
      with_items.
    cbn [fst snd RegistryCore.items_].
    by rewrite (map_size_insert_None _ _ _ Hk).
  - intros request response. eexists. unfold bind.
    rewrite (add_added _ _ _ _ Hk). fold σ'. rewrite Hσ'.
    by rewrite (call_present _ _ _ _ _ _ _ Hl Ho).
Qed.

Lemma add_then_lookup_witness :
  (RegistryCore.add hello_class "goodbye";; RegistryCore.get "goodbye")
    (greeter, greeter_store)
  = Ret 3%positive (added hello_class "goodbye" (greeter, greeter_store)).
Proof.
  apply (add_then_lookup hello_class "goodbye" greeter greeter_store).
  reflexivity.
Defined.

(** X7: [add] under a free name followed by [remove] of that name gives the
    container back exactly as it was (the item mapping, the name and the
    flag), and leaves every object that existed before as it was. *)
Theorem add_then_remove (Item : Plugin.class) (item_name : string)
    (r : RegistryCore.t) (σ : Store) :
  RegistryCore.items_ r !! item_name = None →
  ∃ σ',
    (RegistryCore.add Item item_name;; RegistryCore.remove item_name) (r, σ)
    = Ret tt (r, σ')
    ∧ (∀ l' o, objs σ !! l' = Some o → objs σ' !! l' = Some o)
    ∧ RegistryCore.exists_ item_name (r, σ') = Ret false (r, σ').
Proof.
  intros Hk. destruct (added_lookup Item item_name r σ) as [Hl Ho].
  eexists. split; [|split].
  - unfold bind. rewrite (add_added _ _ _ _ Hk).
    unfold added in *. cbn [fst snd] in *.
    rewrite (remove_present _ _ _ _ _ Hl Ho).
    unfold with_items. cbn [RegistryCore.items_ RegistryCore.name_
      RegistryCore.auto_setup_].
    rewrite delete_insert_eq, (delete_id _ _ Hk). by destruct r.
  - intros l' o Hl'. cbn [objs with_objs].
    assert (l' ≠ fresh (dom (objs σ))) as Hne.
    { intros ->. apply elem_of_dom_2 in Hl'. by apply is_fresh in Hl'. }
    by rewrite !lookup_insert_ne.
  - rewrite exists_spec, Hk. by rewrite bool_decide_eq_false_2 by by intros [].
Qed.

Lemma add_then_remove_witness :
  ∃ σ',
    (RegistryCore.add hello_class "goodbye";; RegistryCore.remove "goodbye")
      (greeter, greeter_store)
    = Ret tt (greeter, σ').
Proof.
  destruct (add_then_remove hello_class "goodbye" greeter greeter_store)
    as (σ' & Hrun & _); [reflexivity|].
  exists σ'. exact Hrun.
Defined.

(** X8: [remove] twice is [remove] once, whatever the container and the
    store: the second one finds the name gone. *)
Theorem remove_twice (item_name : string) (σ : RegistryCore.state) :
  (RegistryCore.remove item_name;; RegistryCore.remove item_name) σ
  = RegistryCore.remove item_name σ.
Proof.
  destruct σ as [r σ]. unfold bind.
  destruct (RegistryCore.items_ r !! item_name) as [l|] eqn:Hk.
  - destruct (objs σ !! l) as [o|] eqn:Ho.
    + rewrite (remove_present _ _ _ _ _ Hk Ho).
      apply remove_absent. apply lookup_delete_eq.
    + unfold RegistryCore.remove, RegistryCore.items_index,
        RegistryCore.items, bind, gets. simpl.
      rewrite (map_count_Some _ _ _ Hk). simpl. rewrite Hk.
      unfold RegistryCore.heap, zoom, ret, Item.tearDown, Item.deref, bind.
      simpl. by rewrite Ho.
  - rewrite (remove_absent _ _ _ Hk). by apply remove_absent.
Qed.

(** X9: [add] always returns a status, and whether it registers or refuses
    it leaves every existing item under its name with its handle, and every
    existing object as it was. *)
Theorem add_frame (Item : Plugin.class) (item_name : string)
    (r : RegistryCore.t) (σ : Store) :
  ∃ s r' σ',
    RegistryCore.add Item item_name (r, σ) = Ret s (r', σ')
    ∧ (∀ k l, RegistryCore.items_ r !! k = Some l →
              RegistryCore.items_ r' !! k = Some l)
    ∧ (∀ l o, objs σ !! l = Some o → objs σ' !! l = Some o)
    ∧ RegistryCore.name_ r' = RegistryCore.name_ r
    ∧ RegistryCore.auto_setup_ r' = RegistryCore.auto_setup_ r.
Proof.
  destruct (RegistryCore.items_ r !! item_name) as [l0|] eqn:Hk.
  - exists (DuplicateItem item_name), r, σ.
    by rewrite (add_duplicate _ _ _ _ _ Hk).
  - eexists _, _, _. split; [by apply add_fresh|].
    split; [|split; [|done]].
    + intros k l Hkl. cbn [with_items RegistryCore.items_].
      rewrite lookup_insert_ne; [done|]. intros <-. congruence.
    + intros l o Hl. cbn [objs with_objs].
      rewrite lookup_insert_ne; [done|].
      intros <-. apply elem_of_dom_2 in Hl. by apply is_fresh in Hl.
Qed.

Lemma add_frame_witness :
  ∃ s r' σ',
    RegistryCore.add hello_class "goodbye" (greeter, greeter_store)
    = Ret s (r', σ')
    ∧ RegistryCore.items_ r' !! "hello" = Some 1%positive
    ∧ objs σ' !! 2%positive = Some (Plugin.mkObj "broken" broken_class 0).
Proof.
  destruct (add_frame hello_class "goodbye" greeter greeter_store)
    as (s & r' & σ' & Hrun & Hitems & Hobjs & _).
  exists s, r', σ'. split; [exact Hrun|]. split.
  - apply Hitems. reflexivity.
  - apply Hobjs. reflexivity.
Defined.

(** ** The defaults of [Plugin] *)

(** X10: an item whose class overrides nothing of [Plugin] reports success
    from [setUp], publishes an empty route, and answers every [call] with
    the status [(1, "Error")], handing the response back as it got it and
    keeping its object as it was. *)
Theorem default_plugin (item_name name : string) (r : RegistryCore.t)
    (σ : Store) (l : loc) (request : PluginRequest)
    (response : PluginResponse) :
  RegistryCore.items_ r !! item_name = Some l →
  objs σ !! l = Some (Plugin.mkObj name Plugin.base tt) →
  setUp_ok σ l = true
  ∧ route_of σ l = ∅
  ∧ RegistryCore.call item_name request response (r, σ)
    = Ret (mkStatus 1 "Error", response)
          (r, with_objs σ (objs σ) [Ev_call l request]).
Proof.
  intros Hk Ho. unfold setUp_ok, route_of. rewrite Ho.
  split; [done|]. split; [done|].
  rewrite (call_present _ _ _ _ _ _ _ Hk Ho). f_equal. f_equal.
  unfold with_objs. f_equal. by apply insert_id.
Qed.

Lemma default_plugin_witness :
  RegistryCore.call "default" ∅ [ {[ "msg" := "kept" ]} ]
    (plain_core, plain_store)
  = Ret (mkStatus 1 "Error", [ {[ "msg" := "kept" ]} ])
        (plain_core,
         with_objs plain_store (objs plain_store) [Ev_call 1%positive ∅]).
Proof.
  destruct (default_plugin "default" "default" plain_core plain_store
              1%positive ∅ [ {[ "msg" := "kept" ]} ]) as (_ & _ & Hcall);
    [reflexivity..|exact Hcall].
Defined.

(** ** RegistryFactory::setUp *)

Lemma settled_ext (σ σ' : Store) (r : RegistryCore.t) :
  (∀ k l, RegistryCore.items_ r !! k = Some l → objs σ' !! l = objs σ !! l) →
  settled σ' r = settled σ r.
Proof.
  intros Hsame. unfold settled. destruct (RegistryCore.auto_setup_ r); [|done].
  f_equal. apply map_filter_ext. intros k l Hk. simpl.
  unfold setUp_ok. by rewrite (Hsame _ _ Hk).
Qed.

Lemma setUp_ok_ext (σ σ' : Store) (l : loc) :
  objs σ' !! l = objs σ !! l → setUp_ok σ' l = setUp_ok σ l.
Proof. intros Hsame. unfold setUp_ok. by rewrite Hsame. Qed.

Lemma setUp_one (w : RegistryFactory.world) (c : loc) (r : RegistryCore.t) :
  RegistryFactory.cores w !! c = Some r →
  core_ok r (RegistryFactory.store w) →
  ∃ σ1,
    RegistryFactory.arrow (Some c) RegistryCore.setUp w
    = Ret tt (with_core w c (settled (RegistryFactory.store w) r, σ1))
    ∧ (∀ l, (∀ k, RegistryCore.items_ r !! k ≠ Some l) →
            objs σ1 !! l = objs (RegistryFactory.store w) !! l)
    ∧ kept (RegistryFactory.store w) σ1 r.
Proof.
  intros Hc [Hlive Hun]. rewrite (arrow_live _ _ _ _ Hc).
  unfold settled, kept.
  destruct (RegistryCore.auto_setup_ r) eqn:Hauto.
  - rewrite (setUp_run _ _ Hauto Hlive Hun). eexists. split; [done|].
    cbn [objs with_objs].
    set (σ := RegistryFactory.store w).
    set (m := RegistryCore.items_ r).
    assert (∀ l, l ∈ (map_iter m).*2 ↔ ∃ k, m !! k = Some l) as Hhandles.
    { intros l. rewrite list_elem_of_fmap. split.
      - intros ([k l'] & -> & Hin%elem_of_map_iter). by exists k.
      - intros [k Hk]. exists (k, l). by rewrite elem_of_map_iter. }
    assert (∀ l, l ∈ (filter (failing σ) (map_iter m)).*2 →
                 l ∈ (map_iter m).*2 ∧ setUp_ok σ l = false) as Hfailed.
    { intros l ([k l'] & -> & Hin)%list_elem_of_fmap.
      apply list_elem_of_filter in Hin as [Hf Hin].
      split; [by apply (list_elem_of_fmap_2 snd _ (k, l'))|done]. }
    split.
    + intros l Hl.
      assert (l ∉ (map_iter m).*2) as Hnot.
      { intros [k Hk]%Hhandles. by apply (Hl k). }
      rewrite lookup_alter_all_notin; [by apply lookup_alter_all_notin|].
      intros [Hin _]%Hfailed. by apply Hnot.
    + intros k l o Hk Ho Hok.
      rewrite lookup_alter_all_notin.
      * rewrite lookup_alter_all_in; [by rewrite Ho| |].
        -- by apply NoDup_map_iter_snd.
        -- apply Hhandles. by exists k.
      * intros [_ Hf]%Hfailed. congruence.
  - rewrite (setUp_not_auto _ _ Hauto). exists (RegistryFactory.store w).
    split; [done|]. split; [done|]. by intros k l o Hk Ho.
Qed.

Lemma setUp_all (regs : list (string * option loc)) :
  ∀ w : RegistryFactory.world,
    sound w →
    NoDup regs.*1 →
    Forall (λ registry,
              RegistryFactory.registries_ (RegistryFactory.instance w)
                !! registry.1 = Some registry.2) regs →
    ∃ w',
      for_each regs (λ registry,
        RegistryFactory.arrow registry.2 RegistryCore.setUp) w
      = Ret tt w'
      ∧ sound w'
      ∧ RegistryFactory.instance w' = RegistryFactory.instance w
      ∧ ∀ rn c r,
          bound w rn c r →
          (rn ∈ regs.*1 →
           RegistryFactory.cores w' !! c
           = Some (settled (RegistryFactory.store w) r)
           ∧ kept (RegistryFactory.store w) (RegistryFactory.store w') r)
          ∧ (rn ∉ regs.*1 →
             RegistryFactory.cores w' !! c = Some r
             ∧ ∀ k l, RegistryCore.items_ r !! k = Some l →
                      objs (RegistryFactory.store w') !! l
                      = objs (RegistryFactory.store w) !! l).
Proof.
  induction regs as [|[rn0 h0] regs IH]; intros w Hsound Hnd Hregs.
  - exists w. split; [done|]. split; [done|]. split; [done|].
    intros rn c r [Hrn Hc]. split; [by intros ?%elem_of_nil|done].
  - apply NoDup_cons in Hnd as [Hrn0 Hnd].
    apply Forall_cons in Hregs as [Hb0 Hregs]. simpl in Hb0, Hrn0.
    pose proof Hsound as [Hwf [Hbinj Hsep]].
    destruct (handle_ok_inv _ _ (Hwf _ _ Hb0))
      as (c0 & r0 & -> & Hc0 & Hlive & Hun).
    destruct (setUp_one w c0 r0 Hc0 (conj Hlive Hun))
      as (σ1 & Hrun1 & Hout1 & Hkept1).
    set (σ := RegistryFactory.store w) in *.
    set (w1 := with_core w c0 (settled σ r0, σ1)) in *.
    assert (sound w1) as Hsound1.
    { apply (sound_arrow _ (Some c0) rn0 RegistryCore.setUp Hb0 m_setUp
               w w1 eq_refl Hsound). by rewrite Hrun1. }
    assert (bound w1 rn0 c0 (settled σ r0)) as Hbound0.
    { split; [done|]. apply lookup_insert_eq. }
    assert (∀ rn c r, bound w rn c r → rn ≠ rn0 →
              bound w1 rn c r
              ∧ ∀ k l, RegistryCore.items_ r !! k = Some l →
                       objs σ1 !! l = objs σ !! l) as Hother.
    { intros rn c r [Hrn Hc] Hne. split.
      - split; [done|]. unfold w1, with_core. cbn [RegistryFactory.cores fst].
        rewrite lookup_insert_ne; [done|]. intros <-.
        apply Hne. exact (Hbinj _ _ _ Hrn Hb0).
      - intros k l Hk. apply Hout1. intros k0 Hk0. apply Hne.
        exact (Hsep rn rn0 c c0 r r0 k k0 l (conj Hrn Hc) (conj Hb0 Hc0)
                 Hk Hk0). }
    destruct (IH w1 Hsound1 Hnd) as (w' & Hrun & Hsound' & Hi' & Hspec).
    { eapply Forall_impl; [exact Hregs|]. by intros registry. }
    exists w'. split; [|split; [done|split; [done|]]].
    { cbn [for_each]. unfold bind. cbn [snd]. by rewrite Hrun1. }
    intros rn c r Hb. destruct (decide (rn = rn0)) as [->|Hne].
    + destruct Hb as [Hrn Hc].
      assert (c = c0) as -> by congruence.
      assert (r = r0) as -> by congruence.
      split; [intros _|intros []; by left].
      destruct (proj2 (Hspec _ _ _ Hbound0) Hrn0) as [Hc' Hsame'].
      split; [done|].
      intros k l o Hk Ho. pose proof (Hkept1 k l o Hk Ho) as Hk1.
      unfold settled in Hsame'.
      destruct (RegistryCore.auto_setup_ r0) eqn:Hauto.
      * intros Hok. rewrite (Hsame' k l); [by apply Hk1|].
        apply map_lookup_filter_Some. by split.
      * by rewrite (Hsame' k l).
    + destruct (Hother _ _ _ Hb Hne) as [Hb1 Hobjs1].
      destruct (Hspec _ _ _ Hb1) as [Hin Hout]. split.
      * intros [?|Hmem]%elem_of_cons; [done|].
        destruct (Hin Hmem) as [Hc' Hkept'].
        change (RegistryFactory.store w1) with σ1 in Hc', Hkept'.
        rewrite (settled_ext σ σ1 r Hobjs1) in Hc'. split; [done|].
        intros k l o Hk Ho. specialize (Hkept' k l o Hk).
        rewrite (Hobjs1 _ _ Hk) in Hkept'. specialize (Hkept' Ho).
        rewrite (setUp_ok_ext σ σ1 l (Hobjs1 _ _ Hk)) in Hkept'.
        exact Hkept'.
      * intros [_ Hnot]%not_elem_of_cons.
        destruct (Hout Hnot) as [Hc' Hsame']. split; [done|].
        intros k l Hk. rewrite (Hsame' _ _ Hk). exact (Hobjs1 _ _ Hk).
Qed.

(** X11: in a well-formed world whose containers share nothing, [setUp] of
    the Directory returns, whatever the items report: a failing item never
    aborts it.  Afterwards the same names are bound; a lazy container is as
    it was, and so are the objects of its items; a container that is not
    lazy holds exactly the items whose [setUp] reported success, each of
    their objects being what its own [setUp] left; and the world is again
    well formed with containers that share nothing. *)
Theorem factory_setUp_spec (w : RegistryFactory.world) :
  sound w →
  ∃ w',
    RegistryFactory.setUp w = Ret tt w'
    ∧ sound w'
    ∧ RegistryFactory.instance w' = RegistryFactory.instance w
    ∧ ∀ rn c r,
        bound w rn c r →
        RegistryFactory.cores w' !! c
        = Some (settled (RegistryFactory.store w) r)
        ∧ (RegistryCore.auto_setup_ r = false →
           settled (RegistryFactory.store w) r = r
           ∧ ∀ k l o,
               RegistryCore.items_ r !! k = Some l →
               objs (RegistryFactory.store w) !! l = Some o →
               objs (RegistryFactory.store w') !! l = Some o)
        ∧ (RegistryCore.auto_setup_ r = true →
           RegistryCore.items_ (settled (RegistryFactory.store w) r)
           = filter (λ item, setUp_ok (RegistryFactory.store w) item.2 = true)
               (RegistryCore.items_ r)
           ∧ ∀ k l o,
               RegistryCore.items_ r !! k = Some l →
               objs (RegistryFactory.store w) !! l = Some o →
               setUp_ok (RegistryFactory.store w) l = true →
               objs (RegistryFactory.store w') !! l = Some (after_setUp o)).
Proof.
  intros Hsound.
  unfold RegistryFactory.setUp, RegistryFactory.all,
    RegistryFactory.registries, bind at 1, gets.
  destruct (setUp_all
              (map_iter (RegistryFactory.registries_
                           (RegistryFactory.instance w)))
              w Hsound (NoDup_map_iter_fst _)) as (w' & Hrun & Hs' & Hi' & Hspec).
  { apply Forall_forall. by intros [rn h] Hin%elem_of_map_iter. }
  exists w'. split; [exact Hrun|]. split; [done|]. split; [done|].
  intros rn c r Hb.
  destruct (proj1 (Hspec rn c r Hb)) as [Hc' Hkept].
  { destruct Hb as [Hrn _]. apply (list_elem_of_fmap_2 fst _ (rn, Some c)).
    by apply elem_of_map_iter. }
  split; [done|]. unfold settled, kept in *. split; intros Hauto;
    rewrite Hauto in *; (split; [done|]); intros k l o Hk Ho.
  - exact (Hkept k l o Hk Ho).
  - exact (Hkept k l o Hk Ho).
Qed.

Lemma factory_setUp_spec_witness :
  ∃ w',
    RegistryFactory.setUp greeter_world = Ret tt w'
    ∧ RegistryFactory.cores w' !! 1%positive
      = Some (with_items greeter {[ "hello" := 1%positive ]}).
Proof.
  destruct (factory_setUp_spec greeter_world greeter_world_sound)
    as (w' & Hrun & _ & _ & Hspec).
  exists w'. split; [exact Hrun|].
  destruct (Hspec "greeter" 1%positive greeter) as [Hc _].
  { split; reflexivity. }
  rewrite Hc. vm_compute. reflexivity.
Defined.

(** ** What every reachable world satisfies *)

(** X12: in every world reached through the interface, a bound registry
    name is bound to a handle that is not null and points to a container;
    every item of that container has a handle to an object of the store,
    and no two item names of it share an object. *)
Theorem reachable_invariant (w : RegistryFactory.world)
    (registry_name : string) (h : option loc) :
  reachable w →
  RegistryFactory.registries_ (RegistryFactory.instance w) !! registry_name
  = Some h →
  ∃ c r,
    h = Some c
    ∧ RegistryFactory.cores w !! c = Some r
    ∧ (∀ k l, RegistryCore.items_ r !! k = Some l →
              is_Some (objs (RegistryFactory.store w) !! l))
    ∧ (∀ k1 k2 l, RegistryCore.items_ r !! k1 = Some l →
                  RegistryCore.items_ r !! k2 = Some l → k1 = k2).
Proof.
  intros Hreach Hrn.
  destruct (handle_ok_inv _ _ (reachable_wf _ Hreach _ _ Hrn))
    as (c & r & -> & Hc & Hlive & Hun).
  exists c, r. split; [done|]. split; [done|].
  split; [exact Hlive|by apply unshared_inj].
Qed.

Lemma reachable_invariant_witness :
  ∃ c r,
    Some 1%positive = Some c
    ∧ RegistryFactory.cores greeter_world !! c = Some r
    ∧ (∀ k l, RegistryCore.items_ r !! k = Some l →
              is_Some (objs (RegistryFactory.store greeter_world) !! l))
    ∧ (∀ k1 k2 l, RegistryCore.items_ r !! k1 = Some l →
                  RegistryCore.items_ r !! k2 = Some l → k1 = k2).
Proof.
  apply (reachable_invariant greeter_world "greeter" (Some 1%positive)).
  - exact greeter_world_reachable.
  - reflexivity.
Defined.

(** ** REGISTER and the queries of the Directory *)

Lemma register_bound (Item : Plugin.class) (registry_name item_name : string)
    (w : RegistryFactory.world) (c : loc) (r : RegistryCore.t) :
  RegistryFactory.registries_ (RegistryFactory.instance w) !! registry_name
  = Some (Some c) →
  RegistryFactory.cores w !! c = Some r →
  RegistryCore.items_ r !! item_name = None →
  REGISTER Item registry_name item_name w
  = Ret (mkStatus 0 "OK")
        (with_core w c (added Item item_name (r, RegistryFactory.store w))).
Proof.
  intros Hrn Hc Hk. unfold REGISTER, RegistryFactory.add, bind.
  rewrite (registry_present _ _ _ Hrn), (arrow_live _ _ _ _ Hc).
  by rewrite (add_added _ _ _ _ Hk).
Qed.

(** X13: registering a class under a free item name of a bound registry
    succeeds, and in the world it leaves the Directory's [exists] answers
    true for the pair, [get] returns the handle of the new object,
    [count(registry_name)] is one more than the container had, and every
    other container is as it was. *)
Theorem register_then_query (Item : Plugin.class)
    (registry_name item_name : string) (w : RegistryFactory.world)
    (c : loc) (r : RegistryCore.t) :
  RegistryFactory.registries_ (RegistryFactory.instance w) !! registry_name
  = Some (Some c) →
  RegistryFactory.cores w !! c = Some r →
  RegistryCore.items_ r !! item_name = None →
  let l := fresh (dom (objs (RegistryFactory.store w))) in
  let w' := with_core w c (added Item item_name (r, RegistryFactory.store w)) in
  REGISTER Item registry_name item_name w = Ret (mkStatus 0 "OK") w'
  ∧ RegistryFactory.exists_ registry_name item_name w' = Ret true w'
  ∧ RegistryFactory.get registry_name item_name w' = Ret l w'
  ∧ objs (RegistryFactory.store w') !! l
    = Some (Plugin.mkObj item_name Item (Plugin.ctor Item))
  ∧ RegistryFactory.count_of registry_name w'
    = Ret (S (size (RegistryCore.items_ r))) w'
  ∧ ∀ c', c' ≠ c →
          RegistryFactory.cores w' !! c' = RegistryFactory.cores w !! c'.
Proof.
  intros Hrn Hc Hk l w'.
  set (r' := (added Item item_name (r, RegistryFactory.store w)).1).
  assert (RegistryFactory.registries_ (RegistryFactory.instance w')
            !! registry_name = Some (Some c)) as Hrn' by done.
  assert (RegistryFactory.cores w' !! c = Some r') as Hc'
    by apply lookup_insert_eq.
  assert (RegistryCore.items_ r' !! item_name = Some l) as Hl
    by apply lookup_insert_eq.
  split; [by apply register_bound|]. split.
  { rewrite (factory_exists_bound _ _ _ _ _ Hrn' Hc'), Hl.
    by rewrite bool_decide_eq_true_2 by by eexists. }
  split; [by rewrite (factory_get_bound _ _ _ _ _ Hrn' Hc'), Hl|].
  split; [apply lookup_insert_eq|]. split.
  { rewrite (factory_count_of_bound _ _ _ _ Hrn' Hc'). f_equal.
    by apply map_size_insert_None. }
  intros c' Hne. by apply lookup_insert_ne.
Qed.

Lemma register_then_query_witness :
  REGISTER hello_class "greeter" "goodbye" greeter_world
  = Ret (mkStatus 0 "OK")
        (with_core greeter_world 1%positive
           (added hello_class "goodbye" (greeter, greeter_store))).
Proof.
  apply (register_then_query hello_class "greeter" "goodbye" greeter_world
           1%positive greeter); reflexivity.
Defined.

(** ** From an empty process to the first call *)

Lemma map_iter_singleton {V : Type} (k : string) (v : V) :
  map_iter ({[ k := v ]} : gmap string V) = [(k, v)].
Proof. unfold map_iter. by rewrite map_to_list_singleton. Qed.

Lemma startup_registered (Item : Plugin.class)
    (registry_name item_name : string) (auto_setup : bool) :
  (RegistryFactory.create registry_name auto_setup;;
   REGISTER Item registry_name item_name) RegistryFactory.start
  = Ret (mkStatus 0 "OK") (booted Item registry_name item_name auto_setup).
Proof.
  unfold bind. rewrite create_free by apply lookup_empty.
  rewrite (register_bound Item registry_name item_name _ 1%positive
             (RegistryCore.mk registry_name ∅ auto_setup)).
  - reflexivity.
  - apply lookup_insert_eq.
  - apply lookup_insert_eq.
  - apply lookup_empty.
Qed.

Lemma booted_setUp_lazy (Item : Plugin.class)
    (registry_name item_name : string) :
  RegistryFactory.setUp (booted Item registry_name item_name false)
  = Ret tt (booted Item registry_name item_name false).
Proof.
  unfold RegistryFactory.setUp, RegistryFactory.all,
    RegistryFactory.registries, bind at 1, gets.
  cbn [booted RegistryFactory.instance RegistryFactory.registries_].
  rewrite map_iter_singleton. cbn [for_each snd]. unfold bind.
  rewrite (arrow_live _ 1%positive
             (RegistryCore.mk registry_name {[ item_name := 1%positive ]}
                false)) by apply lookup_singleton_eq.
  rewrite setUp_not_auto by done.
  by rewrite with_core_same by apply lookup_singleton_eq.
Qed.

Lemma booted_setUp_auto (Item : Plugin.class)
    (registry_name item_name : string) :
  let s := (Plugin.setUp Item (Plugin.ctor Item)).1 in
  ∃ w',
    RegistryFactory.setUp (booted Item registry_name item_name true)
    = Ret tt w'
    ∧ RegistryFactory.exists_ registry_name item_name w' = Ret (ok s) w'
    ∧ (ok s = true →
       objs (RegistryFactory.store w') !! 1%positive
       = Some (after_setUp
                 (Plugin.mkObj item_name Item (Plugin.ctor Item)))).
Proof.
  intros s.
  set (r := RegistryCore.mk registry_name {[ item_name := 1%positive ]} true).
  set (w := booted Item registry_name item_name true).
  set (σ := RegistryFactory.store w).
  assert (RegistryFactory.cores w !! 1%positive = Some r) as Hc
    by apply lookup_singleton_eq.
  assert (live (RegistryCore.items_ r) σ) as Hlive.
  { apply map_Forall_singleton. unfold σ, w, booted. simpl.
    rewrite lookup_singleton_eq. by eexists. }
  assert (unshared (RegistryCore.items_ r)) as Hun.
  { unfold unshared, r. simpl. rewrite map_to_list_singleton.
    apply NoDup_singleton. }
  assert (setUp_ok σ 1%positive = ok s) as Hok.
  { unfold setUp_ok, σ, w, booted. simpl. by rewrite lookup_singleton_eq. }
  pose proof (arrow_live w 1%positive r RegistryCore.setUp Hc) as Hrun.
  fold σ in Hrun. rewrite (setUp_run r σ eq_refl Hlive Hun) in Hrun.
  cbv zeta in Hrun. set (w' := with_core _ _ _) in Hrun.
  exists w'. split; [|split].
  - unfold RegistryFactory.setUp, RegistryFactory.all,
      RegistryFactory.registries, bind at 1, gets.
    change (RegistryFactory.registries_ (RegistryFactory.instance w))
      with ({[ registry_name := Some 1%positive ]} : gmap string (option loc)).
    rewrite map_iter_singleton. cbn [for_each snd]. unfold bind.
    by rewrite Hrun.
  - rewrite (factory_exists_bound registry_name item_name w' 1%positive _
               (lookup_singleton_eq _ _) (lookup_insert_eq _ _ _)).
    f_equal. cbn [with_items RegistryCore.items_ fst r].
    rewrite map_filter_singleton. cbn [snd]. rewrite Hok.
    destruct (ok s).
    + rewrite decide_True by done. rewrite lookup_singleton_eq.
      by apply bool_decide_eq_true_2.
    + rewrite decide_False by done. rewrite lookup_empty.
      apply bool_decide_eq_false_2. by intros [].
  - intros Hs. unfold w'.
    cbn [with_core RegistryFactory.store snd objs with_objs r
      RegistryCore.items_].
    rewrite map_iter_singleton. rewrite filter_cons, filter_nil.
    rewrite decide_False.
    + cbn [alter_all foldl fmap list_fmap snd]. rewrite lookup_alter_eq.
      unfold σ, w, booted. cbn [RegistryFactory.store objs].
      by rewrite lookup_singleton_eq.
    + unfold failing. cbn [snd]. rewrite Hok, Hs. done.
Qed.

(** X14: in a process that starts empty, creates one registry with
    CREATE_REGISTRY, registers one class in it with REGISTER and runs the
    Directory's [setUp], the item exists afterwards exactly when the
    [setUp] of the class succeeds on the state its constructor left, and
    its object is then in the state that [setUp] left.  Had the registry
    been created with CREATE_LAZY_REGISTRY, the item exists afterwards
    whatever its [setUp] would report, and its object is still in the
    state its constructor left. *)
Theorem startup (Item : Plugin.class) (registry_name item_name : string) :
  let s := (Plugin.setUp Item (Plugin.ctor Item)).1 in
  let o := Plugin.mkObj item_name Item (Plugin.ctor Item) in
  (∃ w',
     (CREATE_REGISTRY registry_name;;
      REGISTER Item registry_name item_name;;
      RegistryFactory.setUp;;
      RegistryFactory.exists_ registry_name item_name) RegistryFactory.start
     = Ret (ok s) w'
     ∧ (ok s = true →
        objs (RegistryFactory.store w') !! 1%positive
        = Some (after_setUp o)))
  ∧ (∃ w',
       (CREATE_LAZY_REGISTRY registry_name;;
        REGISTER Item registry_name item_name;;
        RegistryFactory.setUp;;
        RegistryFactory.exists_ registry_name item_name) RegistryFactory.start
       = Ret true w'
       ∧ objs (RegistryFactory.store w') !! 1%positive = Some o).
Proof.
  intros s o. split.
  - destruct (booted_setUp_auto Item registry_name item_name)
      as (w' & Hrun & Hex & Hobj).
    exists w'. split; [|exact Hobj].
    pose proof (startup_registered Item registry_name item_name true) as Hboot.
    unfold CREATE_REGISTRY. unfold bind in *.
    destruct (RegistryFactory.create registry_name true RegistryFactory.start)
      as [z w1|e w1|]; [|done..].
    rewrite Hboot, Hrun. exact Hex.
  - exists (booted Item registry_name item_name false).
    split; [|apply lookup_singleton_eq].
    pose proof (startup_registered Item registry_name item_name false)
      as Hboot.
    unfold CREATE_LAZY_REGISTRY. unfold bind in *.
    destruct (RegistryFactory.create registry_name false
                RegistryFactory.start) as [z w1|e w1|]; [|done..].
    rewrite Hboot, booted_setUp_lazy.
    rewrite (factory_exists_bound registry_name item_name _ 1%positive
               (RegistryCore.mk registry_name {[ item_name := 1%positive ]}
                  false))
      by apply lookup_singleton_eq.
    cbn [RegistryCore.items_]. rewrite lookup_singleton_eq.
    by rewrite bool_decide_eq_true_2 by by eexists.
Qed.

Lemma startup_witness :
  ∃ w',
    (CREATE_REGISTRY "greeter";;
     REGISTER hello_class "greeter" "hello";;
     RegistryFactory.setUp;;
     RegistryFactory.exists_ "greeter" "hello") RegistryFactory.start
    = Ret true w'
    ∧ objs (RegistryFactory.store w') !! 1%positive
      = Some (Plugin.mkObj "hello" hello_class tt).
Proof.
  destruct (proj1 (startup hello_class "greeter" "hello"))
    as (w' & Hrun & Hobj).
  exists w'. split; [exact Hrun|]. apply Hobj. reflexivity.
Defined.
